(** * strdistmatch: the multi-value parameter setter

    A shallow embedding of [strdistmatch/multiSetter.go] and
    [strdistmatch/suggestAlts.go], and the properties of the record
    parsing engine ([MultiSetterBase.GetNamedValue]) and of its two
    storage adapters ([MapMultiSetter], [ListMultiSetter]).

    Go strings are byte sequences: they are modelled by [string], a
    sequence of 8-bit [ascii] characters.  Go maps are modelled by stdpp's
    [gmap]; pointer receivers by explicit state passing: a method that
    mutates its receiver returns the new receiver. *)

From Stdlib Require Import Ascii String List Bool Arith Lia.
From stdpp Require Import base option list gmap strings fin_maps.

Local Open Scope string_scope.

(** ** The [strings] package *)

Module strings.

(** [strings.HasPrefix(s, prefix)]:
    [len(s) >= len(prefix) && s[:len(prefix)] == prefix]. *)
Fixpoint HasPrefix (s prefix : string) {struct prefix} : bool :=
  match prefix with
  | EmptyString => true
  | String p prefix' =>
      match s with
      | EmptyString => false
      | String c s' => if Ascii.eqb c p then HasPrefix s' prefix' else false
      end
  end.

(** [s[n:]] *)
Fixpoint drop_bytes (n : nat) (s : string) : string :=
  match n with
  | O => s
  | S n' => match s with
            | EmptyString => EmptyString
            | String _ s' => drop_bytes n' s'
            end
  end.

(** [strings.TrimPrefix(s, prefix)]: [s] without the leading [prefix];
    [s] itself when it does not start with [prefix]. *)
Definition TrimPrefix (s prefix : string) : string :=
  if HasPrefix s prefix then drop_bytes (String.length prefix) s else s.

(** [strings.Cut(s, sep)]: slices [s] around the first instance of [sep];
    [(s, "", false)] when [sep] does not appear in [s]. *)
Fixpoint Cut (s sep : string) : string * string * bool :=
  if HasPrefix s sep then (EmptyString, TrimPrefix s sep, true)
  else match s with
       | EmptyString => (EmptyString, EmptyString, false)
       | String c s' =>
           let '(before, after, found) := Cut s' sep in
           (String c before, after, found)
       end.

End strings.

(** ** The regular expressions

    [keyRE] is a letter or underscore followed by letters, digits and
    underscores; [eqRE] is an equals sign with optional white space on both
    sides; [strRE] is any run of characters other than the double quote.

    Go's [regexp] works on UTF-8 runes, the model on bytes.  Every class of
    these expressions except the negated one of [strRE] holds ASCII
    characters only, a match starts and ends next to an ASCII character,
    and no byte of a multi-byte rune is the double quote, so the byte-level
    matcher finds the same matches. *)

Module re.

Definition in_range (lo hi c : ascii) : bool :=
  (nat_of_ascii lo <=? nat_of_ascii c)%nat && (nat_of_ascii c <=? nat_of_ascii hi)%nat.

(** [\s] is [[\t\n\f\r ]] *)
Definition is_space (c : ascii) : bool :=
  match nat_of_ascii c with
  | 9 | 10 | 12 | 13 | 32 => true
  | _ => false
  end.

Definition is_letter (c : ascii) : bool :=
  in_range "a" "z" c || in_range "A" "Z" c.

Definition is_digit (c : ascii) : bool := in_range "0" "9" c.

Definition is_underscore (c : ascii) : bool := Ascii.eqb c "_".

(** [[_a-zA-Z]] *)
Definition is_key_start (c : ascii) : bool := is_underscore c || is_letter c.

(** [[_a-zA-Z0-9]] *)
Definition is_key_char (c : ascii) : bool := is_key_start c || is_digit c.

(** The double quote (byte 34), and the class of [strRE]: any character
    but the double quote. *)
Definition dquote : ascii := ascii_of_nat 34.
Definition is_quote (c : ascii) : bool := Ascii.eqb c dquote.
Definition not_quote (c : ascii) : bool := negb (is_quote c).

(** The greedy star of a character class: the longest prefix of [s] whose
    characters are all in the class, and what follows it. *)
Fixpoint span (p : ascii -> bool) (s : string) : string * string :=
  match s with
  | EmptyString => (EmptyString, EmptyString)
  | String c s' =>
      if p c then let '(a, b) := span p s' in (String c a, b)
      else (EmptyString, s)
  end.

(** A match of [keyRE] at the front of [s]: the key and the rest. *)
Definition match_key (s : string) : option (string * string) :=
  match s with
  | EmptyString => None
  | String c s' =>
      if is_key_start c
      then let '(k, rest) := span is_key_char s' in Some (String c k, rest)
      else None
  end.

(** [evsKeyRE.MatchString(s)]: whether [s] contains any match of [keyRE].
    The expression is not anchored: the match may start anywhere in [s]. *)
Fixpoint evsKeyRE_MatchString (s : string) : bool :=
  match match_key s with
  | Some _ => true
  | None => match s with
            | EmptyString => false
            | String _ s' => evsKeyRE_MatchString s'
            end
  end.

(** The result of one match of [subValueRE]: the submatches (the whole
    match, the key, the string content) and the text after the match. *)
Record submatch := Submatch {
  m_whole : string;
  m_key : string;
  m_val : string;
  m_rest : string
}.

(** [expect c s]: the text after a leading [c], if [s] starts with [c]. *)
Definition expect (c : ascii) (s : string) : option string :=
  match s with
  | String c' s' => if Ascii.eqb c' c then Some s' else None
  | EmptyString => None
  end.

(** A match of [subValueRE] at the front of [s]: optional space, the key
    (kept), [eqRE], the quoted string (content kept), optional space.

    Each starred class is followed by a character outside the class, so
    the first match of the backtracking search is the greedy one and a
    failure of the greedy attempt is a failure of every attempt. *)
Definition match_subValue (s : string) : option submatch :=
  let '(ws1, s1) := span is_space s in
  match match_key s1 with
  | None => None
  | Some (key, s2) =>
      let '(ws2, s3) := span is_space s2 in
      match expect "=" s3 with
      | None => None
      | Some s4 =>
          let '(ws3, s5) := span is_space s4 in
          match expect dquote s5 with
          | None => None
          | Some s6 =>
              let '(val, s7) := span not_quote s6 in
              match expect dquote s7 with
              | None => None
              | Some s8 =>
                  let '(ws4, rest) := span is_space s8 in
                  Some (Submatch
                          (ws1 ++ key ++ ws2 ++ "=" ++ ws3
                               ++ String dquote (val ++ String dquote ws4))
                          key val rest)
              end
          end
      end
  end.

(** The leftmost match of [subValueRE] in [s]. *)
Fixpoint find_subValue (s : string) : option submatch :=
  match match_subValue s with
  | Some m => Some m
  | None => match s with
            | EmptyString => None
            | String _ s' => find_subValue s'
            end
  end.

(** [subValueRE.FindAllStringSubmatch(s, -1)]: the successive leftmost
    matches, each search starting where the previous match ended.  A match
    is never empty, so the text left shrinks: [fuel] bounds the number of
    matches, and the length of [s] is enough. *)
Fixpoint FindAll_fuel (fuel : nat) (s : string) : list (list string) :=
  match fuel with
  | O => []
  | S fuel' =>
      match find_subValue s with
      | None => []
      | Some m => [m_whole m; m_key m; m_val m] :: FindAll_fuel fuel' (m_rest m)
      end
  end.

Definition subValueRE_FindAllStringSubmatch (s : string) : list (list string) :=
  FindAll_fuel (String.length s) s.

End re.

(** ** Values of the surrounding libraries *)

(** Go's zero value of a type. *)
Class Zero (A : Type) := zero : A.
Global Instance string_Zero : Zero string := EmptyString.

(** The errors the setter returns.  Each constructor stands for one
    [fmt.Errorf] or [errors.New] of the source and keeps the arguments the
    message is formatted from.  An ordinal is the number the message
    prints, the index of the entry plus one; its suffix (1st, 2nd, ...) is
    a function of it.  [ErrExternal] is an error returned by a field
    setter or by a post-action function. *)
Inductive error : Type :=
| ErrNameEmpty
| ErrBadName (name : string) (alts : list string)
| ErrNoValues (val : string)
| ErrCannotParse (ord : nat)
| ErrTextBefore (badVal : string) (ord : nat) (wholeSubValue : string)
| ErrBadSubValueName (evKey : string) (ord : nat) (alts : list string)
| ErrSetTwice (evKey prevVal wholeSubValue : string) (ord : nat)
| ErrMustBeSet (evKey : string)
| ErrTextAtEnd (val : string)
| ErrExternal (msg : string).

(** The panics of the configuration checks. *)
Inductive panic : Type :=
| PanicInvalidEntry (k : string)
| PanicAllowedVals (msg : string)
| PanicNoSetters
| PanicBadKey (k : string)
| PanicMustTakeValue (k : string)
| PanicSetterCheck (k : string)
| PanicAliasIsSubval (k : string)
| PanicAliasTarget (k v : string).

Module strdist.

(** [Finder.FindNStrLike(n, s, pop...)] of the default case-blind cosine
    finder of the strdist module, which is outside this repository. *)
Class Finder := FindNStrLike : nat -> string -> list string -> list string.

(** What the strdist module documents of it: at most [n] strings, all
    taken from the population. *)
Definition Finder_contract (F : Finder) : Prop :=
  forall (n : nat) (s : string) (pop : list string),
    (List.length (FindNStrLike n s pop) <= n)%nat /\
    (forall x : string, x ∈ FindNStrLike n s pop -> x ∈ pop).

End strdist.

Module param.

(** [param.ValueReq] *)
Inductive ValueReq : Type := Mandatory | Optional | None.

(** The [param.Setter] interface, for setters whose target is a member of a
    record of type [T]: [SetWithVal] receives the record and returns it
    updated, with the error if there is one; [CheckSetter] tells whether
    the check passes (it panics otherwise). *)
Record Setter (T : Type) : Type := {
  SetWithVal : string -> string -> T -> T * option error;
  ValueReq_of : ValueReq;
  CheckSetter : string -> bool;
  AllowedValues : string
}.
Arguments SetWithVal {T}.
Arguments ValueReq_of {T}.
Arguments CheckSetter {T}.
Arguments AllowedValues {T}.

End param.

Module psetter.

(** [psetter.AllowedVals[S]], a map from the allowed value to its
    description. *)
Abbreviation AllowedVals := (gmap string string).

(** [AllowedVals.ValueAllowed(val)]: whether [val] is a key of the map. *)
Definition ValueAllowed (av : AllowedVals) (val : string) : bool :=
  bool_decide (is_Some (av !! val)).

(** [AllowedVals.Check()], of the param module: the error it reports. *)
Class AllowedValsCheck := Check : AllowedVals -> option string.

End psetter.

(** [maps.Keys(m)] and the order of [range] over a map: Go leaves the
    order unspecified; the model takes the order of [map_to_list]. *)
Definition maps_Keys {A} (m : gmap string A) : list string :=
  (map_to_list m).*1.

(** ** suggestAlts.go *)

(** [SuggestAlternatives(n, s, pop)].  The source returns the empty string
    when the finder finds nothing and otherwise the text that lists the
    alternatives; the model returns the alternatives listed. *)
Definition SuggestAlternatives `{!strdist.Finder}
    (n : nat) (s : string) (pop : list string) : list string :=
  strdist.FindNStrLike n s pop.

(** ** multiSetter.go *)

Definition wholeValIdx : nat := 0.
Definition keyIdx : nat := 1.
Definition valIdx : nat := 2.
Definition expectedRegexpSubmatchLength : nat := 3.

Definition maxAltNames : nat := 3.

(** [MultiSetterActionFunc]: a closure over the setter; what it can reach
    of the setter is the entry value, which it receives and returns. *)
Definition MultiSetterActionFunc (T : Type) : Type :=
  string -> string -> T -> T * option error.

Record EntryValSetter (T : Type) : Type := {
  Setter : param.Setter T;
  PostActionFuncs : list (MultiSetterActionFunc T);
  MustBeSet : bool
}.
Arguments Setter {T}.
Arguments PostActionFuncs {T}.
Arguments MustBeSet {T}.

Module NamedValue.

Record t (T : Type) : Type := {
  Name : string;
  Value : T
}.
Arguments Name {T}.
Arguments Value {T}.
Arguments Build_t {T}.

Global Instance t_Zero {T} `{!Zero T} : Zero (t T) :=
  {| Name := zero; Value := zero |}.

End NamedValue.

Record MultiSetterBase (T : Type) : Type := {
  DfltEntryVal : T;
  EntryVal : T;
  EntryValSetterMap : gmap string (EntryValSetter T);
  AVals : psetter.AllowedVals;
  EntryValSMAliases : gmap string string
}.
Arguments DfltEntryVal {T}.
Arguments EntryVal {T}.
Arguments EntryValSetterMap {T}.
Arguments AVals {T}.
Arguments EntryValSMAliases {T}.
Arguments Build_MultiSetterBase {T}.

(** [s.EntryVal = v] *)
Definition set_EntryVal {T} (s : MultiSetterBase T) (v : T) : MultiSetterBase T :=
  {| DfltEntryVal := DfltEntryVal s;
     EntryVal := v;
     EntryValSetterMap := EntryValSetterMap s;
     AVals := AVals s;
     EntryValSMAliases := EntryValSMAliases s |}.

Section MultiSetterBase.
Context {T : Type} `{ZeroT : !Zero T} `{Fd : !strdist.Finder}.

(** [checkParamPartName] *)
Definition checkParamPartName (s : MultiSetterBase T) (name : string) : option error :=
  if decide (name = "") then Some ErrNameEmpty
  else if (0 <? size (AVals s))%nat then
    if negb (psetter.ValueAllowed (AVals s) name) then
      let pop := maps_Keys (AVals s) in
      Some (ErrBadName name (SuggestAlternatives maxAltNames name pop))
    else None
  else None.

(** [getSetter]: the key and the setter, or the error (the source then
    returns the key it was given and a zero [EntryValSetter] with it,
    which its caller drops). *)
Definition getSetter (s : MultiSetterBase T) (i : nat) (evKey : string)
  : (string * EntryValSetter T) + error :=
  match EntryValSetterMap s !! evKey with
  | Some evs => inl (evKey, evs)
  | None =>
      match
        match EntryValSMAliases s !! evKey with
        | Some aliasKey =>
            match EntryValSetterMap s !! aliasKey with
            | Some evs => Some (aliasKey, evs)
            | None => None
            end
        | None => None
        end
      with
      | Some (aliasKey, evs) => inl (aliasKey, evs)
      | None =>
          let entryValNames := maps_Keys (EntryValSetterMap s) in
          let aliasNames := maps_Keys (EntryValSMAliases s) in
          let entryValNames := (entryValNames ++ aliasNames)%list in
          inr (ErrBadSubValueName evKey (i + 1)
                 (SuggestAlternatives maxAltNames evKey entryValNames))
      end
  end.

(** The loop over [evs.PostActionFuncs] of [setWithSubval]. *)
Fixpoint runPostActionFuncs (fs : list (MultiSetterActionFunc T))
    (evKey evVal : string) (ev : T) : T * option error :=
  match fs with
  | [] => (ev, None)
  | f :: fs' =>
      match f evKey evVal ev with
      | (ev', Some err) => (ev', Some err)
      | (ev', None) => runPostActionFuncs fs' evKey evVal ev'
      end
  end.

(** [setWithSubval]: the receiver and [dups] are mutated in place, so
    they are returned with the results (the text left and the error). *)
Definition setWithSubval (s : MultiSetterBase T) (wholeValue : string) (i : nat)
    (sVal : list string) (dups : gmap string string)
  : MultiSetterBase T * gmap string string * string * option error :=
  if negb (List.length sVal =? expectedRegexpSubmatchLength)%nat then
    (s, dups, wholeValue, Some (ErrCannotParse (i + 1)))
  else
    let wholeSubValue := nth wholeValIdx sVal "" in
    if negb (strings.HasPrefix wholeValue wholeSubValue) then
      let badVal := (strings.Cut wholeValue wholeSubValue).1.1 in
      (s, dups, wholeValue, Some (ErrTextBefore badVal (i + 1) wholeSubValue))
    else
      let wholeValue := strings.TrimPrefix wholeValue wholeSubValue in
      let evKey := nth keyIdx sVal "" in
      let evVal := nth valIdx sVal "" in
      match getSetter s i evKey with
      | inr err => (s, dups, wholeValue, Some err)
      | inl (evKey, evs) =>
          match dups !! evKey with
          | Some prevVal =>
              (s, dups, wholeValue,
               Some (ErrSetTwice evKey prevVal wholeSubValue (i + 1)))
          | None =>
              let dups := <[evKey := wholeSubValue]> dups in
              match param.SetWithVal (Setter evs) evKey evVal (EntryVal s) with
              | (ev, Some err) => (set_EntryVal s ev, dups, wholeValue, Some err)
              | (ev, None) =>
                  match runPostActionFuncs (PostActionFuncs evs) evKey evVal ev with
                  | (ev, Some err) => (set_EntryVal s ev, dups, wholeValue, Some err)
                  | (ev, None) => (set_EntryVal s ev, dups, wholeValue, None)
                  end
              end
          end
      end.

(** The loop over [subValues] of [GetNamedValue], from index [i] on. *)
Fixpoint setWithSubvals (s : MultiSetterBase T) (val : string) (i : nat)
    (subValues : list (list string)) (dups : gmap string string)
  : MultiSetterBase T * gmap string string * string * option error :=
  match subValues with
  | [] => (s, dups, val, None)
  | sVal :: rest =>
      match setWithSubval s val i sVal dups with
      | (s', dups', val', Some err) => (s', dups', val', Some err)
      | (s', dups', val', None) => setWithSubvals s' val' (S i) rest dups'
      end
  end.

(** The loop over [s.EntryValSetterMap] of [GetNamedValue]: the first key
    that must be set and is not in [dups]. *)
Definition mustBeSetMissing (s : MultiSetterBase T) (dups : gmap string string)
  : option string :=
  fst <$> List.find
    (fun kv : string * EntryValSetter T =>
       MustBeSet kv.2 && negb (bool_decide (is_Some (dups !! kv.1))))
    (map_to_list (EntryValSetterMap s)).

(** [GetNamedValue]: the receiver after the call, the named value and the
    error. *)
Definition GetNamedValue (s : MultiSetterBase T) (paramVal : string)
  : MultiSetterBase T * NamedValue.t T * option error :=
  let '(name, val, ok) := strings.Cut paramVal "=" in
  match checkParamPartName s name with
  | Some err => (s, zero, Some err)
  | None =>
      if negb ok then
        (s, {| NamedValue.Name := name; NamedValue.Value := DfltEntryVal s |}, None)
      else
        let s := set_EntryVal s (DfltEntryVal s) in
        let subValues := re.subValueRE_FindAllStringSubmatch val in
        if decide (length subValues = 0)%nat then
          (s, zero, Some (ErrNoValues val))
        else
          match setWithSubvals s val 0 subValues ∅ with
          | (s, _, _, Some err) => (s, zero, Some err)
          | (s, dups, val, None) =>
              match mustBeSetMissing s dups with
              | Some evKey => (s, zero, Some (ErrMustBeSet evKey))
              | None =>
                  if decide (val <> "") then (s, zero, Some (ErrTextAtEnd val))
                  else (s, {| NamedValue.Name := name; NamedValue.Value := EntryVal s |}, None)
              end
          end
  end.

End MultiSetterBase.

(** *** The configuration checks

    A check returns the panic it raises, [None] when it returns
    normally. *)

(** The first panic of a loop body run over [l]. *)
Fixpoint range_panic {A} (body : A -> option panic) (l : list A) : option panic :=
  match l with
  | [] => None
  | x :: l' =>
      match body x with
      | Some p => Some p
      | None => range_panic body l'
      end
  end.

(** Sequencing of two checks. *)
Definition and_then (a b : option panic) : option panic :=
  match a with
  | Some p => Some p
  | None => b
  end.

Section checks.
Context {T : Type} `{AVC : !psetter.AllowedValsCheck}.

(** [checkAllowedValues] *)
Definition checkAllowedValues (s : MultiSetterBase T) : option panic :=
  if decide (size (AVals s) = 0)%nat then None
  else match psetter.Check (AVals s) with
       | Some msg => Some (PanicAllowedVals msg)
       | None => None
       end.

(** The body of the loop of [checkEntryValSetters]. *)
Definition checkEntryValSetter (kv : string * EntryValSetter T) : option panic :=
  let '(k, evs) := kv in
  if negb (re.evsKeyRE_MatchString k) then Some (PanicBadKey k)
  else match param.ValueReq_of (Setter evs) with
       | param.None => Some (PanicMustTakeValue k)
       | _ =>
           if param.CheckSetter (Setter evs) k then None
           else Some (PanicSetterCheck k)
       end.

(** [checkEntryValSetters] *)
Definition checkEntryValSetters (s : MultiSetterBase T) : option panic :=
  if decide (size (EntryValSetterMap s) = 0)%nat then Some PanicNoSetters
  else range_panic checkEntryValSetter (map_to_list (EntryValSetterMap s)).

(** [checkEntryValSetterMapAliases] *)
Definition checkEntryValSetterMapAliases (s : MultiSetterBase T) : option panic :=
  range_panic
    (fun kv : string * string =>
       let '(k, v) := kv in
       match EntryValSetterMap s !! k with
       | Some _ => Some (PanicAliasIsSubval k)
       | None =>
           match EntryValSetterMap s !! v with
           | Some _ => None
           | None => Some (PanicAliasTarget k v)
           end
       end)
    (map_to_list (EntryValSMAliases s)).

(** [CheckMultiSetter] *)
Definition CheckMultiSetter (s : MultiSetterBase T) : option panic :=
  and_then (checkAllowedValues s)
    (and_then (checkEntryValSetters s) (checkEntryValSetterMapAliases s)).

End checks.

(** *** The storage adapters

    [Value] is the container the Go field points to: the pointer is not
    nil, and the map it points to is not nil once [CheckSetter] has
    run. *)

Module MapMultiSetter.

Record t (T : Type) : Type := {
  Value : gmap string T;
  AllowHiddenMapEntries : bool;
  Base : MultiSetterBase T
}.
Arguments Value {T}.
Arguments AllowHiddenMapEntries {T}.
Arguments Base {T}.

Section methods.
Context {T : Type} `{ZeroT : !Zero T} `{Fd : !strdist.Finder} `{AVC : !psetter.AllowedValsCheck}.

(** [checkValue], for a pointer that is not nil. *)
Definition checkValue (s : t T) : option panic :=
  if decide (size (AVals (Base s)) = 0)%nat then None
  else if AllowHiddenMapEntries s then None
  else range_panic
         (fun k : string =>
            if psetter.ValueAllowed (AVals (Base s)) k then None
            else Some (PanicInvalidEntry k))
         (maps_Keys (Value s)).

(** [CheckSetter] *)
Definition CheckSetter (s : t T) : option panic :=
  and_then (checkValue s) (CheckMultiSetter (Base s)).

(** [SetWithVal]: the setter after the call and the error. *)
Definition SetWithVal (s : t T) (paramVal : string) : t T * option error :=
  let '(base, nv, err) := GetNamedValue (Base s) paramVal in
  match err with
  | Some e =>
      ({| Value := Value s;
          AllowHiddenMapEntries := AllowHiddenMapEntries s;
          Base := base |}, Some e)
  | None =>
      ({| Value := <[NamedValue.Name nv := NamedValue.Value nv]> (Value s);
          AllowHiddenMapEntries := AllowHiddenMapEntries s;
          Base := base |}, None)
  end.

End methods.
End MapMultiSetter.

Module ListMultiSetter.

Record t (T : Type) : Type := {
  Value : list (NamedValue.t T);
  AllowInvalidListEntries : bool;
  Base : MultiSetterBase T
}.
Arguments Value {T}.
Arguments AllowInvalidListEntries {T}.
Arguments Base {T}.

Section methods.
Context {T : Type} `{ZeroT : !Zero T} `{Fd : !strdist.Finder} `{AVC : !psetter.AllowedValsCheck}.

(** [checkValue], for a pointer that is not nil. *)
Definition checkValue (s : t T) : option panic :=
  if decide (size (AVals (Base s)) = 0)%nat then None
  else if AllowInvalidListEntries s then None
  else range_panic
         (fun nv : NamedValue.t T =>
            if psetter.ValueAllowed (AVals (Base s)) (NamedValue.Name nv) then None
            else Some (PanicInvalidEntry (NamedValue.Name nv)))
         (Value s).

(** [CheckSetter] *)
Definition CheckSetter (s : t T) : option panic :=
  and_then (checkValue s) (CheckMultiSetter (Base s)).

(** [SetWithVal]: the setter after the call and the error. *)
Definition SetWithVal (s : t T) (paramVal : string) : t T * option error :=
  let '(base, nv, err) := GetNamedValue (Base s) paramVal in
  match err with
  | Some e =>
      ({| Value := Value s;
          AllowInvalidListEntries := AllowInvalidListEntries s;
          Base := base |}, Some e)
  | None =>
      ({| Value := (Value s ++ [nv])%list;
          AllowInvalidListEntries := AllowInvalidListEntries s;
          Base := base |}, None)
  end.

(** [n] successive calls of [SetWithVal] with the same parameter value. *)
Fixpoint SetWithVal_times (n : nat) (s : t T) (paramVal : string) : t T :=
  match n with
  | O => s
  | S n' => SetWithVal_times n' (SetWithVal s paramVal).1 paramVal
  end.

End methods.
End ListMultiSetter.

(** ** The grammar of the parameter value

    The words of the documentation about the text the setter reads, to
    state the properties with. *)

Fixpoint all_chars (p : ascii -> bool) (s : string) : bool :=
  match s with
  | EmptyString => true
  | String c s' => p c && all_chars p s'
  end.

(** The identifier grammar of a key: the first character is a letter or
    an underscore, every remaining character a letter, a digit or an
    underscore. *)
Definition identifier_grammar (k : string) : bool :=
  match k with
  | EmptyString => false
  | String c k' => re.is_key_start c && all_chars re.is_key_char k'
  end.

(** One assignment of a field list: the key, the string between double
    quotes, and the white space around them and around the equals sign. *)
Record assignment : Type := Assignment {
  a_ws1 : string;
  a_key : string;
  a_ws2 : string;
  a_ws3 : string;
  a_val : string;
  a_ws4 : string
}.

Definition well_formed (a : assignment) : bool :=
  all_chars re.is_space (a_ws1 a) && identifier_grammar (a_key a)
  && all_chars re.is_space (a_ws2 a) && all_chars re.is_space (a_ws3 a)
  && all_chars re.not_quote (a_val a) && all_chars re.is_space (a_ws4 a).

(** The text of an assignment and of a list of assignments. *)
Definition render (a : assignment) : string :=
  a_ws1 a ++ a_key a ++ a_ws2 a ++ "=" ++ a_ws3 a
    ++ String re.dquote (a_val a ++ String re.dquote (a_ws4 a)).

Fixpoint render_all (l : list assignment) : string :=
  match l with
  | [] => EmptyString
  | a :: l' => render a ++ render_all l'
  end.

(** The canonical key a raw key stands for: itself when it is a key of
    the setter map, else its alias target. *)
Definition canonical {T} (s : MultiSetterBase T) (raw : string) : string :=
  match EntryValSetterMap s !! raw with
  | Some _ => raw
  | None => default raw (EntryValSMAliases s !! raw)
  end.

(** The record after the assignments [l], each setting its field: [put k
    v r] is [r] with the field of key [k] set to [v], and [conv k txt] the
    value the setter of [k] converts the text [txt] to. *)
Definition assigned {T F} (s : MultiSetterBase T)
    (put : string -> F -> T -> T) (conv : string -> string -> F)
    (l : list assignment) (r : T) : T :=
  fold_left
    (fun r a => put (canonical s (a_key a))
                    (conv (canonical s (a_key a)) (a_val a)) r)
    l r.

(** The setter of the field an assignment names sets that field to the
    value converted from the text of the assignment, whatever the entry
    value holds, and the post-action functions of the field succeed and
    leave the entry value as it is. *)
Definition sets_field {T F} (s : MultiSetterBase T)
    (put : string -> F -> T -> T) (conv : string -> string -> F)
    (a : assignment) : Prop :=
  let k := canonical s (a_key a) in
  forall evs,
    EntryValSetterMap s !! k = Some evs ->
    (forall r, param.SetWithVal (Setter evs) k (a_val a) r
               = (put k (conv k (a_val a)) r, None)) /\
    (forall f, f ∈ PostActionFuncs evs -> forall r, f k (a_val a) r = (r, None)).

(** An assignment without the white space before its key. *)
Definition lstrip (a : assignment) : assignment :=
  Assignment "" (a_key a) (a_ws2 a) (a_ws3 a) (a_val a) (a_ws4 a).

(** ** A configuration to run the setter on

    A part of the setter that [addParams] builds for the [algo] parameter:
    four of the sub-values of [algoDetailsSetter], with the members of
    [algoParams] they set.  The setters of the psetter package are reduced
    to what the examples need: [psetter.Int] reads an unsigned decimal
    number, [psetter.Bool] the words true and false, and [psetter.Float]
    keeps the text of a decimal number. *)

(** Go string literals holding double quotes are written with a single
    quote in place of each double quote. *)
Fixpoint lit (s : string) : string :=
  match s with
  | EmptyString => EmptyString
  | String c s' => String (if Ascii.eqb c "'" then re.dquote else c) (lit s')
  end.

Module Sample.

Record algoParams : Type := {
  nGramLen : nat;
  threshold : string;
  useGivenThreshold : bool;
  minStrLen : nat;
  mapToLowerCase : bool
}.

Global Instance algoParams_Zero : Zero algoParams :=
  {| nGramLen := 0; threshold := ""; useGivenThreshold := false;
     minStrLen := 0; mapToLowerCase := false |}.

Definition set_nGramLen (v : nat) (p : algoParams) : algoParams :=
  {| nGramLen := v; threshold := threshold p;
     useGivenThreshold := useGivenThreshold p;
     minStrLen := minStrLen p; mapToLowerCase := mapToLowerCase p |}.
Definition set_threshold (v : string) (p : algoParams) : algoParams :=
  {| nGramLen := nGramLen p; threshold := v;
     useGivenThreshold := useGivenThreshold p;
     minStrLen := minStrLen p; mapToLowerCase := mapToLowerCase p |}.
Definition set_useGivenThreshold (v : bool) (p : algoParams) : algoParams :=
  {| nGramLen := nGramLen p; threshold := threshold p;
     useGivenThreshold := v;
     minStrLen := minStrLen p; mapToLowerCase := mapToLowerCase p |}.
Definition set_minStrLen (v : nat) (p : algoParams) : algoParams :=
  {| nGramLen := nGramLen p; threshold := threshold p;
     useGivenThreshold := useGivenThreshold p;
     minStrLen := v; mapToLowerCase := mapToLowerCase p |}.
Definition set_mapToLowerCase (v : bool) (p : algoParams) : algoParams :=
  {| nGramLen := nGramLen p; threshold := threshold p;
     useGivenThreshold := useGivenThreshold p;
     minStrLen := minStrLen p; mapToLowerCase := v |}.

(** An unsigned decimal number. *)
Fixpoint parse_digits (acc : nat) (s : string) : option nat :=
  match s with
  | EmptyString => Some acc
  | String c s' =>
      if re.is_digit c
      then parse_digits (10 * acc + (nat_of_ascii c - 48)) s'
      else None
  end.

Definition parse_nat (s : string) : option nat :=
  match s with
  | EmptyString => None
  | _ => parse_digits 0 s
  end.

(** [psetter.Int] with its checks. *)
Definition Int_Setter (put : nat -> algoParams -> algoParams) (ck : nat -> bool)
  : param.Setter algoParams :=
  {| param.SetWithVal := fun _ paramVal p =>
       match parse_nat paramVal with
       | Some v => if ck v then (put v p, None)
                   else (p, Some (ErrExternal "the value fails the check"))
       | None => (p, Some (ErrExternal "could not interpret the value as a whole number"))
       end;
     param.ValueReq_of := param.Mandatory;
     param.CheckSetter := fun _ => true;
     param.AllowedValues := "any value that can be read as a whole number" |}.

(** [psetter.Bool] *)
Definition Bool_Setter (put : bool -> algoParams -> algoParams)
  : param.Setter algoParams :=
  {| param.SetWithVal := fun _ paramVal p =>
       if String.eqb paramVal "true" then (put true p, None)
       else if String.eqb paramVal "false" then (put false p, None)
       else (p, Some (ErrExternal "cannot interpret the value as true or false"));
     param.ValueReq_of := param.Optional;
     param.CheckSetter := fun _ => true;
     param.AllowedValues := "true or false" |}.

(** [psetter.Float] *)
Definition Float_Setter (put : string -> algoParams -> algoParams)
  : param.Setter algoParams :=
  {| param.SetWithVal := fun _ paramVal p =>
       match paramVal with
       | EmptyString => (p, Some (ErrExternal "could not interpret the value as a number"))
       | _ => (put paramVal p, None)
       end;
     param.ValueReq_of := param.Mandatory;
     param.CheckSetter := fun _ => true;
     param.AllowedValues := "any value that can be read as a number" |}.

(** The post-action function of the threshold sub-value. *)
Definition threshold_given : MultiSetterActionFunc algoParams :=
  fun _ _ p => (set_useGivenThreshold true p, None).

Definition evs (st : param.Setter algoParams)
    (fs : list (MultiSetterActionFunc algoParams)) (must : bool)
  : EntryValSetter algoParams :=
  {| Setter := st; PostActionFuncs := fs; MustBeSet := must |}.

Definition dfltNGramLen : nat := 3.

Definition algoDetailsDflt : algoParams :=
  {| nGramLen := dfltNGramLen; threshold := ""; useGivenThreshold := false;
     minStrLen := 0; mapToLowerCase := false |}.

(** Three of the allowed names; the names stand for the constants
    of the strdist module ([strdist.AlgoNameLevenshtein] and the like). *)
Definition algoDetailsAVals : psetter.AllowedVals :=
  list_to_map [("levenshtein", "a Levenshtein algorithm");
               ("cosine", "a cosine algorithm");
               ("hamming", "a Hamming algorithm")].

Definition algoDetailsSetterMap : gmap string (EntryValSetter algoParams) :=
  list_to_map
    [("nGramLen", evs (Int_Setter set_nGramLen (Nat.ltb 0)) [] false);
     ("threshold", evs (Float_Setter set_threshold) [threshold_given] false);
     ("minStrLen", evs (Int_Setter set_minStrLen (fun _ => true)) [] false);
     ("mapToLowerCase", evs (Bool_Setter set_mapToLowerCase) [] false)].

Definition algoDetailsAliases : gmap string string :=
  list_to_map [("ngLen", "nGramLen");
               ("Threshold", "threshold");
               ("toLower", "mapToLowerCase")].

Definition algoDetailsSetter : MultiSetterBase algoParams :=
  {| DfltEntryVal := algoDetailsDflt;
     EntryVal := zero;
     EntryValSetterMap := algoDetailsSetterMap;
     AVals := algoDetailsAVals;
     EntryValSMAliases := algoDetailsAliases |}.

(** The same setter with the [minStrLen] sub-value marked [MustBeSet]. *)
Definition mustSetter : MultiSetterBase algoParams :=
  {| DfltEntryVal := algoDetailsDflt;
     EntryVal := zero;
     EntryValSetterMap :=
       <["minStrLen" := evs (Int_Setter set_minStrLen (fun _ => true)) [] true]>
         algoDetailsSetterMap;
     AVals := algoDetailsAVals;
     EntryValSMAliases := algoDetailsAliases |}.

(** The values of the members, and the members by the key that sets
    them. *)
Inductive value : Type :=
| VNat (n : nat)
| VBool (b : bool)
| VText (t : string).

Definition put (k : string) (v : value) (p : algoParams) : algoParams :=
  match v with
  | VNat n =>
      if String.eqb k "nGramLen" then set_nGramLen n p
      else if String.eqb k "minStrLen" then set_minStrLen n p
      else p
  | VBool b =>
      if String.eqb k "mapToLowerCase" then set_mapToLowerCase b p else p
  | VText t =>
      if String.eqb k "threshold" then set_threshold t p else p
  end.

Definition conv (k txt : string) : value :=
  if String.eqb k "mapToLowerCase" then VBool (String.eqb txt "true")
  else if String.eqb k "threshold" then VText txt
  else VNat (default 0 (parse_nat txt)).

(** A setter whose only sub-value has a key with hyphens. *)
Definition hyphenSetter : MultiSetterBase algoParams :=
  {| DfltEntryVal := algoDetailsDflt;
     EntryVal := zero;
     EntryValSetterMap :=
       {[ "n-gram-len" := evs (Int_Setter set_nGramLen (Nat.ltb 0)) [] false ]};
     AVals := ∅;
     EntryValSMAliases := ∅ |}.

(** A finder to run the examples with: the first [n] strings of the
    population that start with the first character of [s]. *)
Global Instance finder : strdist.Finder :=
  fun n s pop =>
    take n (List.filter
              (fun p => strings.HasPrefix p (String.substring 0 1 s)) pop).

(** [AllowedVals.Check] passes. *)
Global Instance avals_check : psetter.AllowedValsCheck := fun _ => None.

End Sample.

(** ** The rest of the program *)

(** The texts of a list, one after the other. *)
Definition concat_all (l : list string) : string :=
  fold_right String.append "" l.

(** The parts of a match by their indexes. *)
Definition whole_of (sVal : list string) : string := nth wholeValIdx sVal "".
Definition key_of (sVal : list string) : string := nth keyIdx sVal "".
Definition val_of (sVal : list string) : string := nth valIdx sVal "".

Module Prog.

(** [Prog], over the types of its [stack] (of the verbose module) and of
    the values of [algoParams]. *)
Record t (Stack P : Type) : Type := {
  exitStatus : Z;
  stack : Stack;
  maxResults : Z;
  wordFile : string;
  algoParams : list (NamedValue.t P)
}.
Arguments exitStatus {Stack P}.
Arguments stack {Stack P}.
Arguments maxResults {Stack P}.
Arguments wordFile {Stack P}.
Arguments algoParams {Stack P}.

Section methods.
Context {Stack P : Type}.

(** [prog.exitStatus = es] *)
Definition set_exitStatus (prog : t Stack P) (es : Z) : t Stack P :=
  {| exitStatus := es;
     stack := stack prog;
     maxResults := maxResults prog;
     wordFile := wordFile prog;
     algoParams := algoParams prog |}.

(** [SetExitStatus] *)
Definition SetExitStatus (prog : t Stack P) (es : Z) : t Stack P :=
  if decide (exitStatus prog = 0%Z) then set_exitStatus prog es else prog.

(** [ForceExitStatus] *)
Definition ForceExitStatus (prog : t Stack P) (es : Z) : t Stack P :=
  set_exitStatus prog es.

End methods.

(** [getMaxStrLen]: the lengths are of type [int] and not negative, so
    the conversion of the result to [uint] changes nothing. *)
Definition getMaxStrLen (ss : list string) : nat :=
  fold_left (fun maxLen s => Nat.max maxLen (String.length s)) ss 0%nat.

End Prog.

Module addParams.

(** The check of the [stripRunes] sub-value, on the runes of the string
    (the conversion of a string to its runes is Go's): the loop over
    [runeSlc] from index [i] on, and the check.  The error is given by
    the arguments of its message: the string, the rune and the two
    positions. *)
Fixpoint stripRunesCheck_loop (s : string) (runeIdx : gmap N nat) (i : nat)
    (runeSlc : list N) : option (string * N * nat * nat) :=
  match runeSlc with
  | [] => None
  | r :: rest =>
      match runeIdx !! r with
      | Some idx => Some (s, r, (i + 1)%nat, (idx + 1)%nat)
      | None => stripRunesCheck_loop s runeIdx (S i) rest
      end
  end.

Definition stripRunesCheck (runes_of : string -> list N) (s : string)
  : option (string * N * nat * nat) :=
  let runeIdx : gmap N nat := ∅ in
  let runeSlc := runes_of s in
  stripRunesCheck_loop s runeIdx 0 runeSlc.

End addParams.

Module algo.

(** [algoParams] (algo.go), over the type of [float64]. *)
Record algoParams (Float : Type) : Type := {
  nGramLen : Z;
  minNGramLen : Z;
  overflowTheSource : bool;
  maxNGramCacheSize : Z;
  threshold : Float;
  useGivenThreshold : bool;
  minStrLen : Z;
  mapToLowerCase : bool;
  stripRunes : string
}.
Arguments threshold {Float}.
(** The member [threshold], under a name that the local variable
    [threshold] of [makeFinders] does not hide. *)
Definition algo_threshold {Float} (ap : algoParams Float) : Float := threshold ap.
Arguments useGivenThreshold {Float}.
Arguments minStrLen {Float}.
Arguments mapToLowerCase {Float}.
Arguments stripRunes {Float}.

(** [strdist.FinderConfig] *)
Record FinderConfig (Float : Type) : Type := {
  Threshold : Float;
  MinStrLength : Z;
  MapToLowerCase : bool;
  StripRunes : string
}.
Arguments Build_FinderConfig {Float}.

Section makeFinders.
Context {Stack Float Algo Finder : Type}.
(** [algoMakers], the map of algo.go; [strdist.DefaultThresholds], read
    at a name (the zero value when the name is not a key); and
    [strdist.NewFinder]. *)
Context (algoMakers : gmap string (algoParams Float -> Algo + error))
        (DefaultThresholds : string -> Float)
        (NewFinder : FinderConfig Float -> Algo -> Finder + error).

(** The loop of [makeFinders] over [prog.algoParams], with the finders
    made so far; what the program prints is left out.  [None] is the nil
    slice returned on an error. *)
Fixpoint makeFinders_loop (prog : Prog.t Stack (algoParams Float))
    (aps : list (NamedValue.t (algoParams Float))) (finders : list Finder)
  : Prog.t Stack (algoParams Float) * option (list Finder) :=
  match aps with
  | [] => (prog, Some finders)
  | nv :: aps' =>
      let algoName := NamedValue.Name nv in
      let algoParams := NamedValue.Value nv in
      match algoMakers !! algoName with
      | None => (Prog.SetExitStatus prog 1, None)
      | Some algoMaker =>
          match algoMaker algoParams with
          | inr _ => (Prog.SetExitStatus prog 1, None)
          | inl algo =>
              let threshold := DefaultThresholds algoName in
              let threshold :=
                if useGivenThreshold algoParams then algo_threshold algoParams
                else threshold in
              let fc :=
                Build_FinderConfig threshold (minStrLen algoParams)
                  (mapToLowerCase algoParams) (stripRunes algoParams) in
              match NewFinder fc algo with
              | inr _ => (Prog.SetExitStatus prog 1, None)
              | inl f => makeFinders_loop prog aps' (finders ++ [f])%list
              end
          end
      end
  end.

(** [makeFinders] *)
Definition makeFinders (prog : Prog.t Stack (algoParams Float))
  : Prog.t Stack (algoParams Float) * option (list Finder) :=
  makeFinders_loop prog (Prog.algoParams prog) [].

(** The configuration of the finder of a named value. *)
Definition config_of (nv : NamedValue.t (algoParams Float)) : FinderConfig Float :=
  let ap := NamedValue.Value nv in
  Build_FinderConfig
    (if useGivenThreshold ap then algo_threshold ap
     else DefaultThresholds (NamedValue.Name nv))
    (minStrLen ap) (mapToLowerCase ap) (stripRunes ap).

(** A named value a finder can be made of, and the finder. *)
Definition makes (nv : NamedValue.t (algoParams Float)) (f : Finder) : Prop :=
  exists algoMaker algo,
    algoMakers !! NamedValue.Name nv = Some algoMaker /\
    algoMaker (NamedValue.Value nv) = inl algo /\
    NewFinder (config_of nv) algo = inl f.

End makeFinders.
End algo.

(** * Properties *)

(** ** Strings *)

Section string_facts.

Lemma append_cons c (s t : string) : String c s ++ t = String c (s ++ t).
Proof. reflexivity. Qed.

Lemma append_nil_l (t : string) : "" ++ t = t.
Proof. reflexivity. Qed.

Lemma append_nil_r (s : string) : s ++ "" = s.
Proof.
  induction s as [|c s IH]; [reflexivity|].
  rewrite append_cons. now f_equal.
Qed.

Lemma append_assoc (a b c : string) : (a ++ b) ++ c = a ++ (b ++ c).
Proof.
  induction a as [|x a IH]; [reflexivity|].
  rewrite !append_cons. now f_equal.
Qed.

Lemma length_append (a b : string) :
  String.length (a ++ b) = (String.length a + String.length b)%nat.
Proof.
  induction a as [|x a IH]; [reflexivity|].
  rewrite append_cons. simpl. now f_equal.
Qed.

Lemma HasPrefix_append (a b : string) : strings.HasPrefix (a ++ b) a = true.
Proof.
  induction a as [|x a IH]; [reflexivity|].
  rewrite append_cons. simpl. now rewrite Ascii.eqb_refl.
Qed.

Lemma drop_bytes_append (a b : string) :
  strings.drop_bytes (String.length a) (a ++ b) = b.
Proof. induction a as [|x a IH]; [reflexivity | exact IH]. Qed.

Lemma TrimPrefix_append (a b : string) : strings.TrimPrefix (a ++ b) a = b.
Proof.
  unfold strings.TrimPrefix. rewrite HasPrefix_append. apply drop_bytes_append.
Qed.

End string_facts.

(** ** The matcher *)

Section matcher_facts.

Lemma span_append p s a b : re.span p s = (a, b) -> s = a ++ b.
Proof.
  revert a b. induction s as [|c s IH]; simpl; intros a b H.
  - now inversion H.
  - destruct (p c).
    + destruct (re.span p s) as [a' b'] eqn:E. inversion H; subst.
      rewrite append_cons. f_equal. now apply IH.
    + now inversion H.
Qed.

(** The star takes the whole of a run of the class and goes on in what
    follows it. *)
Lemma span_run p a s :
  all_chars p a = true ->
  re.span p (a ++ s) = ((a ++ (re.span p s).1), (re.span p s).2).
Proof.
  induction a as [|c a IH]; intros H.
  - rewrite !append_nil_l. now destruct (re.span p s).
  - simpl in H. apply andb_prop in H as [Hc Ha].
    rewrite !append_cons. simpl. rewrite Hc, (IH Ha). reflexivity.
Qed.

Lemma span_stop p c s : p c = false -> re.span p (String c s) = ("", String c s).
Proof. simpl. now intros ->. Qed.

(** A match is a prefix of the text it is found at the front of. *)
Lemma match_subValue_whole s m :
  re.match_subValue s = Some m -> s = re.m_whole m ++ re.m_rest m.
Proof.
  unfold re.match_subValue.
  destruct (re.span re.is_space s) as [ws1 s1] eqn:E1.
  destruct (re.match_key s1) as [[key s2]|] eqn:Ek; [|discriminate].
  destruct (re.span re.is_space s2) as [ws2 s3] eqn:E2.
  destruct (re.expect "=" s3) as [s4|] eqn:X1; [|discriminate].
  destruct (re.span re.is_space s4) as [ws3 s5] eqn:E3.
  destruct (re.expect re.dquote s5) as [s6|] eqn:X2; [|discriminate].
  destruct (re.span re.not_quote s6) as [val s7] eqn:E4.
  destruct (re.expect re.dquote s7) as [s8|] eqn:X3; [|discriminate].
  destruct (re.span re.is_space s8) as [ws4 rest] eqn:E5.
  intros H. inversion H; subst; clear H. simpl.
  assert (Hx : forall c t u, re.expect c t = Some u -> t = String c u).
  { intros c [|c' t] u; simpl; [discriminate|].
    destruct (Ascii.eqb c' c) eqn:Hc; [|discriminate].
    apply Ascii.eqb_eq in Hc. intros [= ->]. now subst. }
  apply span_append in E1, E2, E3, E4, E5.
  apply Hx in X1, X2, X3.
  assert (Hk : s1 = key ++ s2).
  { unfold re.match_key in Ek. destruct s1 as [|c s1]; [discriminate|].
    destruct (re.is_key_start c); [|discriminate].
    destruct (re.span re.is_key_char s1) as [k r] eqn:E.
    apply span_append in E. inversion Ek; subst. reflexivity. }
  subst. rewrite !append_assoc, !append_cons, !append_nil_l.
  now rewrite ?append_assoc, ?append_cons.
Qed.

Lemma match_subValue_shorter s m :
  re.match_subValue s = Some m ->
  (String.length (re.m_rest m) < String.length s)%nat.
Proof.
  intros H. pose proof (match_subValue_whole _ _ H) as Hs.
  rewrite Hs, length_append. clear Hs.
  enough (0 < String.length (re.m_whole m))%nat by lia.
  revert H. unfold re.match_subValue.
  destruct (re.span re.is_space s) as [ws1 s1].
  destruct (re.match_key s1) as [[key s2]|]; [|discriminate].
  destruct (re.span re.is_space s2) as [ws2 s3].
  destruct (re.expect "=" s3) as [s4|]; [|discriminate].
  destruct (re.span re.is_space s4) as [ws3 s5].
  destruct (re.expect re.dquote s5) as [s6|]; [|discriminate].
  destruct (re.span re.not_quote s6) as [val s7].
  destruct (re.expect re.dquote s7) as [s8|]; [|discriminate].
  destruct (re.span re.is_space s8) as [ws4 rest].
  intros [= <-]. simpl. rewrite !length_append. simpl. lia.
Qed.

Lemma find_subValue_shorter s m :
  re.find_subValue s = Some m ->
  (String.length (re.m_rest m) < String.length s)%nat.
Proof.
  induction s as [|c s IH].
  - vm_compute. discriminate.
  - cbn [re.find_subValue]. destruct (re.match_subValue (String c s)) eqn:E.
    + intros [= <-]. now apply match_subValue_shorter in E.
    + intros H. apply IH in H. simpl. lia.
Qed.

Lemma find_subValue_match s m :
  re.match_subValue s = Some m -> re.find_subValue s = Some m.
Proof.
  destruct s; [vm_compute; discriminate |].
  cbn [re.find_subValue]. now intros ->.
Qed.

Lemma FindAll_fuel_enough n k s :
  (String.length s <= n)%nat -> (String.length s <= k)%nat ->
  re.FindAll_fuel n s = re.FindAll_fuel k s.
Proof.
  revert k s. induction n as [|n IH]; intros k s Hn Hk.
  - destruct s; [|simpl in Hn; lia]. now destruct k.
  - destruct k as [|k].
    + destruct s; [reflexivity | simpl in Hk; lia].
    + simpl. destruct (re.find_subValue s) as [m|] eqn:E; [|reflexivity].
      apply find_subValue_shorter in E. f_equal. apply IH; lia.
Qed.

(** The matches of a text: the leftmost match, then the matches of the
    text after it. *)
Lemma FindAll_unfold s :
  re.subValueRE_FindAllStringSubmatch s =
  match re.find_subValue s with
  | None => []
  | Some m =>
      [re.m_whole m; re.m_key m; re.m_val m]
        :: re.subValueRE_FindAllStringSubmatch (re.m_rest m)
  end.
Proof.
  unfold re.subValueRE_FindAllStringSubmatch.
  destruct (re.find_subValue s) as [m|] eqn:E.
  - pose proof (find_subValue_shorter _ _ E) as Hlt.
    destruct (String.length s) as [|n] eqn:Hl; [lia|].
    simpl. rewrite E. f_equal. apply FindAll_fuel_enough; lia.
  - destruct (String.length s); simpl; [reflexivity | now rewrite E].
Qed.

(** Every match has the three parts the setter expects. *)
Lemma FindAll_length s sVal :
  sVal ∈ re.subValueRE_FindAllStringSubmatch s ->
  List.length sVal = expectedRegexpSubmatchLength.
Proof.
  unfold re.subValueRE_FindAllStringSubmatch.
  generalize (String.length s) as n. intros n. revert s.
  induction n as [|n IH]; intros s; simpl.
  - intros H. inversion H.
  - destruct (re.find_subValue s) as [m|]; [|intros H; inversion H].
    intros H. apply elem_of_cons in H as [-> | H]; [reflexivity | eauto].
Qed.

(** The classes of the expressions are disjoint where the matcher needs
    them to be. *)
Lemma key_start_not_space c : re.is_key_start c = true -> re.is_space c = false.
Proof.
  destruct c as [[] [] [] [] [] [] [] []]; vm_compute; congruence.
Qed.

Lemma space_not_key_char c : re.is_space c = true -> re.is_key_char c = false.
Proof.
  destruct c as [[] [] [] [] [] [] [] []]; vm_compute; congruence.
Qed.

Lemma span_blocked p q ws d t :
  (forall c, q c = true -> p c = false) ->
  all_chars q ws = true -> p d = false ->
  re.span p (ws ++ String d t) = ("", ws ++ String d t).
Proof.
  intros Hpq Hws Hd. destruct ws as [|c ws].
  - rewrite append_nil_l. now apply span_stop.
  - simpl in Hws. apply andb_prop in Hws as [Hc _].
    rewrite append_cons. apply span_stop. auto.
Qed.

(** The matcher on the text of a well-formed assignment followed by any
    text: the match runs to the end of the white space that follows the
    closing quote. *)
Lemma match_subValue_render a t :
  well_formed a = true ->
  re.match_subValue (render a ++ t) =
  Some (re.Submatch (render a ++ (re.span re.is_space t).1)
          (a_key a) (a_val a) (re.span re.is_space t).2).
Proof.
  destruct a as [ws1 key ws2 ws3 val ws4]. unfold well_formed, render. simpl.
  rewrite !andb_true_iff. intros [[[[[H1 Hk] H2] H3] Hv] H4].
  destruct key as [|c key]; [discriminate|]. simpl in Hk.
  apply andb_prop in Hk as [Hc Hk].
  rewrite !append_assoc, !append_cons, !append_nil_l, !append_assoc, !append_cons.
  unfold re.match_subValue.
  rewrite (span_run _ ws1 _ H1).
  rewrite (span_stop re.is_space c _ (key_start_not_space c Hc)).
  simpl fst; simpl snd. rewrite append_nil_r.
  unfold re.match_key. rewrite Hc.
  rewrite (span_run _ key _ Hk).
  rewrite (span_blocked re.is_key_char re.is_space ws2 "=" _ space_not_key_char H2 eq_refl).
  simpl fst; simpl snd. rewrite append_nil_r.
  rewrite (span_run _ ws2 _ H2).
  rewrite (span_stop re.is_space "=" _ eq_refl).
  simpl fst; simpl snd. rewrite append_nil_r.
  simpl re.expect. cbv beta iota.
  rewrite (span_run _ ws3 _ H3).
  rewrite (span_stop re.is_space re.dquote _ eq_refl).
  simpl fst; simpl snd. rewrite append_nil_r.
  simpl re.expect. cbv beta iota.
  rewrite (span_run _ val _ Hv).
  rewrite (span_stop re.not_quote re.dquote _ eq_refl).
  simpl fst; simpl snd. rewrite append_nil_r.
  simpl re.expect. cbv beta iota.
  rewrite (span_run _ ws4 _ H4).
  destruct (re.span re.is_space t) as [sp t'].
  simpl fst; simpl snd.
  now rewrite ?append_cons, ?append_nil_l.
Qed.

Lemma span_all_chars p s : all_chars p s = true -> re.span p s = (s, "").
Proof.
  induction s as [|c s IH]; simpl; [reflexivity|].
  intros H. apply andb_prop in H as [-> H]. now rewrite (IH H).
Qed.

(** White space holds no match. *)
Lemma find_subValue_space s :
  all_chars re.is_space s = true -> re.find_subValue s = None.
Proof.
  assert (Hm : forall t, all_chars re.is_space t = true -> re.match_subValue t = None).
  { intros t Ht. unfold re.match_subValue. now rewrite (span_all_chars _ _ Ht). }
  induction s as [|c s IH]; intros H.
  - reflexivity.
  - cbn [re.find_subValue]. rewrite (Hm _ H).
    simpl in H. apply andb_prop in H as [_ H]. auto.
Qed.

Lemma FindAll_space s :
  all_chars re.is_space s = true -> re.subValueRE_FindAllStringSubmatch s = [].
Proof. intros H. now rewrite FindAll_unfold, find_subValue_space. Qed.

End matcher_facts.

(** ** The engine: what a call leaves of the receiver *)

Section engine_facts.
Context {T : Type} `{ZeroT : !Zero T} `{Fd : !strdist.Finder}.
Implicit Types (s : MultiSetterBase T) (dups : gmap string string).

Lemma set_EntryVal_id s : set_EntryVal s (EntryVal s) = s.
Proof. now destruct s. Qed.

(** [setWithSubval] changes nothing of the receiver but the entry value. *)
Lemma setWithSubval_receiver s val i sVal dups s' dups' val' e :
  setWithSubval s val i sVal dups = (s', dups', val', e) ->
  exists ev, s' = set_EntryVal s ev.
Proof.
  unfold setWithSubval. intros H.
  repeat case_match; simplify_eq; eauto using eq_sym, set_EntryVal_id.
Qed.

Lemma setWithSubvals_receiver subValues : forall s val i dups s' dups' val' e,
  setWithSubvals s val i subValues dups = (s', dups', val', e) ->
  exists ev, s' = set_EntryVal s ev.
Proof.
  induction subValues as [|sVal rest IH]; simpl; intros s val i dups s' dups' val' e H.
  - simplify_eq. eauto using eq_sym, set_EntryVal_id.
  - destruct (setWithSubval s val i sVal dups) as [[[s1 d1] v1] [e1|]] eqn:E.
    + simplify_eq. eauto using setWithSubval_receiver.
    + apply setWithSubval_receiver in E as [ev ->].
      apply IH in H as [ev' ->]. now exists ev'.
Qed.

Lemma GetNamedValue_receiver s paramVal :
  exists ev, (GetNamedValue s paramVal).1.1 = set_EntryVal s ev.
Proof.
  unfold GetNamedValue.
  destruct (strings.Cut paramVal "=") as [[name val] ok].
  destruct (checkParamPartName s name); simpl;
    [eauto using eq_sym, set_EntryVal_id|].
  destruct ok; simpl; [|eauto using eq_sym, set_EntryVal_id].
  case_decide; simpl; [eauto|].
  destruct (setWithSubvals _ _ _ _ _) as [[[s1 d1] v1] e1] eqn:E.
  apply setWithSubvals_receiver in E as [ev ->].
  repeat case_match; simpl; eauto.
Qed.

(** The results of a call do not depend on the entry value the receiver
    holds when the call starts. *)
Lemma GetNamedValue_fresh s ev paramVal :
  (GetNamedValue (set_EntryVal s ev) paramVal).1.2 = (GetNamedValue s paramVal).1.2 /\
  (GetNamedValue (set_EntryVal s ev) paramVal).2 = (GetNamedValue s paramVal).2.
Proof.
  unfold GetNamedValue.
  destruct (strings.Cut paramVal "=") as [[name val] ok].
  change (checkParamPartName (set_EntryVal s ev) name)
    with (checkParamPartName s name).
  destruct (checkParamPartName s name); [now split|].
  destruct ok; simpl; now split.
Qed.


(** A value whose name is refused. *)
Lemma GetNamedValue_bad_name s paramVal name val ok e :
  strings.Cut paramVal "=" = (name, val, ok) ->
  checkParamPartName s name = Some e ->
  GetNamedValue s paramVal = (s, zero, Some e).
Proof. unfold GetNamedValue. now intros -> ->. Qed.

(** A value with a field list: the steps of the call. *)
Lemma GetNamedValue_fields s paramVal name val :
  strings.Cut paramVal "=" = (name, val, true) ->
  checkParamPartName s name = None ->
  GetNamedValue s paramVal =
  let s0 := set_EntryVal s (DfltEntryVal s) in
  let subValues := re.subValueRE_FindAllStringSubmatch val in
  match subValues with
  | [] => (s0, zero, Some (ErrNoValues val))
  | _ =>
      match setWithSubvals s0 val 0 subValues ∅ with
      | (s1, _, _, Some err) => (s1, zero, Some err)
      | (s1, dups, val1, None) =>
          match mustBeSetMissing s1 dups with
          | Some evKey => (s1, zero, Some (ErrMustBeSet evKey))
          | None =>
              if decide (val1 <> "") then (s1, zero, Some (ErrTextAtEnd val1))
              else (s1, {| NamedValue.Name := name;
                           NamedValue.Value := EntryVal s1 |}, None)
          end
      end
  end.
Proof.
  unfold GetNamedValue. intros -> ->. cbv zeta. simpl negb. cbv iota.
  destruct (re.subValueRE_FindAllStringSubmatch val) eqn:E; [reflexivity|].
  case_decide; [discriminate | reflexivity].
Qed.

(** The loop over the matches, cut at a match. *)
Lemma setWithSubvals_app pre : forall s val i post dups,
  setWithSubvals s val i (pre ++ post)%list dups =
  match setWithSubvals s val i pre dups with
  | (s', dups', val', Some err) => (s', dups', val', Some err)
  | (s', dups', val', None) =>
      setWithSubvals s' val' (i + List.length pre) post dups'
  end.
Proof.
  induction pre as [|sVal pre IH]; intros s val i post dups; simpl.
  - now rewrite Nat.add_0_r.
  - destruct (setWithSubval s val i sVal dups) as [[[s1 d1] v1] [e1|]];
      [reflexivity|].
    rewrite IH. now replace (S i + List.length pre)%nat
      with (i + S (List.length pre))%nat by lia.
Qed.

End engine_facts.

(** ** The storage adapters and failed calls *)

Section adapters.
Context {T : Type} `{ZeroT : !Zero T} `{Fd : !strdist.Finder}.
Implicit Types (s : MultiSetterBase T) (dups : gmap string string).

(** An error comes with the zero named value. *)
Lemma GetNamedValue_error_zero s paramVal e :
  (GetNamedValue s paramVal).2 = Some e ->
  (GetNamedValue s paramVal).1.2 = zero.
Proof.
  unfold GetNamedValue.
  destruct (strings.Cut paramVal "=") as [[name val] ok].
  destruct (checkParamPartName s name); [reflexivity|].
  destruct ok; simpl; [|discriminate].
  case_decide; [reflexivity|].
  destruct (setWithSubvals _ _ _ _ _) as [[[s1 d1] v1] [e1|]]; [reflexivity|].
  destruct (mustBeSetMissing s1 d1); [reflexivity|].
  case_decide; [reflexivity | discriminate].
Qed.

Lemma Map_SetWithVal_error (m : MapMultiSetter.t T) paramVal e :
  (GetNamedValue (MapMultiSetter.Base m) paramVal).2 = Some e ->
  (MapMultiSetter.SetWithVal m paramVal).2 = Some e /\
  MapMultiSetter.Value (MapMultiSetter.SetWithVal m paramVal).1
  = MapMultiSetter.Value m.
Proof.
  unfold MapMultiSetter.SetWithVal.
  destruct (GetNamedValue _ _) as [[b nv] err]. simpl. now intros ->.
Qed.

Lemma List_SetWithVal_error (l : ListMultiSetter.t T) paramVal e :
  (GetNamedValue (ListMultiSetter.Base l) paramVal).2 = Some e ->
  (ListMultiSetter.SetWithVal l paramVal).2 = Some e /\
  ListMultiSetter.Value (ListMultiSetter.SetWithVal l paramVal).1
  = ListMultiSetter.Value l.
Proof.
  unfold ListMultiSetter.SetWithVal.
  destruct (GetNamedValue _ _) as [[b nv] err]. simpl. now intros ->.
Qed.

Lemma Map_SetWithVal_err (m : MapMultiSetter.t T) paramVal :
  (MapMultiSetter.SetWithVal m paramVal).2
  = (GetNamedValue (MapMultiSetter.Base m) paramVal).2.
Proof.
  unfold MapMultiSetter.SetWithVal.
  now destruct (GetNamedValue _ _) as [[b nv] [err|]].
Qed.

Lemma Map_SetWithVal_Value (m : MapMultiSetter.t T) paramVal :
  MapMultiSetter.Value (MapMultiSetter.SetWithVal m paramVal).1
  = match (GetNamedValue (MapMultiSetter.Base m) paramVal).2 with
    | Some _ => MapMultiSetter.Value m
    | None =>
        let nv := (GetNamedValue (MapMultiSetter.Base m) paramVal).1.2 in
        <[NamedValue.Name nv := NamedValue.Value nv]> (MapMultiSetter.Value m)
    end.
Proof.
  unfold MapMultiSetter.SetWithVal.
  now destruct (GetNamedValue _ _) as [[b nv] [err|]].
Qed.

Lemma Map_SetWithVal_Base (m : MapMultiSetter.t T) paramVal :
  MapMultiSetter.Base (MapMultiSetter.SetWithVal m paramVal).1
  = (GetNamedValue (MapMultiSetter.Base m) paramVal).1.1.
Proof.
  unfold MapMultiSetter.SetWithVal.
  now destruct (GetNamedValue _ _) as [[b nv] [err|]].
Qed.

Lemma List_SetWithVal_Base (l : ListMultiSetter.t T) paramVal :
  ListMultiSetter.Base (ListMultiSetter.SetWithVal l paramVal).1
  = (GetNamedValue (ListMultiSetter.Base l) paramVal).1.1.
Proof.
  unfold ListMultiSetter.SetWithVal.
  now destruct (GetNamedValue _ _) as [[b nv] [err|]].
Qed.

(** The next call on the receiver a call leaves gives the same results. *)
Lemma GetNamedValue_again s paramVal paramVal' :
  let s1 := (GetNamedValue s paramVal).1.1 in
  (GetNamedValue s1 paramVal').1.2 = (GetNamedValue s paramVal').1.2 /\
  (GetNamedValue s1 paramVal').2 = (GetNamedValue s paramVal').2.
Proof.
  destruct (GetNamedValue_receiver s paramVal) as [ev Hev]. simpl.
  rewrite Hev. apply GetNamedValue_fresh.
Qed.

Lemma List_SetWithVal_times_ok n : forall (l : ListMultiSetter.t T) paramVal,
  (GetNamedValue (ListMultiSetter.Base l) paramVal).2 = None ->
  ListMultiSetter.Value (ListMultiSetter.SetWithVal_times n l paramVal)
  = (ListMultiSetter.Value l
       ++ replicate n (GetNamedValue (ListMultiSetter.Base l) paramVal).1.2)%list.
Proof.
  induction n as [|n IH]; intros l paramVal Hok; simpl.
  - now rewrite app_nil_r.
  - pose proof (GetNamedValue_again (ListMultiSetter.Base l) paramVal paramVal)
      as [Hnv Herr]. simpl in Hnv, Herr.
    rewrite IH; rewrite List_SetWithVal_Base; [|congruence].
    rewrite Hnv.
    unfold ListMultiSetter.SetWithVal.
    destruct (GetNamedValue (ListMultiSetter.Base l) paramVal) as [[b nv] err].
    simpl in *. subst err. simpl. now rewrite <- app_assoc.
Qed.

Lemma List_SetWithVal_times_error n : forall (l : ListMultiSetter.t T) paramVal e,
  (GetNamedValue (ListMultiSetter.Base l) paramVal).2 = Some e ->
  ListMultiSetter.Value (ListMultiSetter.SetWithVal_times n l paramVal)
  = ListMultiSetter.Value l.
Proof.
  induction n as [|n IH]; intros l paramVal e Herr; simpl; [reflexivity|].
  pose proof (GetNamedValue_again (ListMultiSetter.Base l) paramVal paramVal)
    as [_ Herr']. simpl in Herr'.
  rewrite (IH _ _ e); [now apply List_SetWithVal_error in Herr as [_ ->]|].
  rewrite List_SetWithVal_Base. congruence.
Qed.

(** C2: when parsing fails, at whatever step, [GetNamedValue] returns the
    zero named value with the error, and the [SetWithVal] of the map
    setter and of the list setter return that error and leave the
    container they point to as it was. *)
Theorem failed_parse_is_atomic (base : MultiSetterBase T) (paramVal : string)
    (err : error) :
  (GetNamedValue base paramVal).2 = Some err ->
  (GetNamedValue base paramVal).1.2 = zero /\
  (forall m : MapMultiSetter.t T,
     MapMultiSetter.Base m = base ->
     (MapMultiSetter.SetWithVal m paramVal).2 = Some err /\
     MapMultiSetter.Value (MapMultiSetter.SetWithVal m paramVal).1
     = MapMultiSetter.Value m) /\
  (forall l : ListMultiSetter.t T,
     ListMultiSetter.Base l = base ->
     (ListMultiSetter.SetWithVal l paramVal).2 = Some err /\
     ListMultiSetter.Value (ListMultiSetter.SetWithVal l paramVal).1
     = ListMultiSetter.Value l).
Proof.
  intros Herr. split; [eauto using GetNamedValue_error_zero|].
  split.
  - intros m <-. now apply Map_SetWithVal_error.
  - intros l <-. now apply List_SetWithVal_error.
Qed.

(** C8: the map setter given the same parameter value twice holds the
    container it held after the first call (so the entry of the name is
    the one a single call stores); the list setter given a parameter value
    that parses [n] times holds [n] more entries, all equal to the named
    value of that parameter value, after the entries it held, and none
    when the value does not parse. *)
Theorem adapters_on_repeated_input :
  (forall (m : MapMultiSetter.t T) (paramVal : string),
     let m1 := (MapMultiSetter.SetWithVal m paramVal).1 in
     let m2 := (MapMultiSetter.SetWithVal m1 paramVal).1 in
     MapMultiSetter.Value m2 = MapMultiSetter.Value m1 /\
     (MapMultiSetter.SetWithVal m1 paramVal).2
     = (MapMultiSetter.SetWithVal m paramVal).2) /\
  (forall (l : ListMultiSetter.t T) (paramVal : string) (n : nat),
     let '(_, nv, err) := GetNamedValue (ListMultiSetter.Base l) paramVal in
     ListMultiSetter.Value (ListMultiSetter.SetWithVal_times n l paramVal)
     = match err with
       | None => (ListMultiSetter.Value l ++ replicate n nv)%list
       | Some _ => ListMultiSetter.Value l
       end).
Proof.
  split.
  - intros m paramVal. cbv zeta.
    pose proof (GetNamedValue_again (MapMultiSetter.Base m) paramVal paramVal)
      as [Hnv Herr]. simpl in Hnv, Herr.
    rewrite !Map_SetWithVal_err, (Map_SetWithVal_Value _ paramVal).
    rewrite Map_SetWithVal_Base, Hnv, Herr.
    split; [|reflexivity].
    rewrite (Map_SetWithVal_Value m paramVal).
    destruct (GetNamedValue (MapMultiSetter.Base m) paramVal).2; [reflexivity|].
    apply insert_insert_eq.
  - intros l paramVal n.
    destruct (GetNamedValue (ListMultiSetter.Base l) paramVal) as [[b nv] err] eqn:E.
    destruct err as [e|].
    + apply (List_SetWithVal_times_error n l paramVal e). now rewrite E.
    + rewrite List_SetWithVal_times_ok; now rewrite E.
Qed.

End adapters.

(** ** Names, keys and empty field lists *)

Section resolution.
Context {T : Type} `{ZeroT : !Zero T} `{Fd : !strdist.Finder}.
Implicit Types (s : MultiSetterBase T) (dups : gmap string string).

Lemma elem_of_maps_Keys {A} (m : gmap string A) (k : string) :
  k ∈ maps_Keys m <-> is_Some (m !! k).
Proof.
  unfold maps_Keys. rewrite list_elem_of_fmap. split.
  - intros [[k' x] [-> Hin]]. apply elem_of_map_to_list in Hin. now exists x.
  - intros [x Hx]. exists (k, x). split; [reflexivity|].
    now apply elem_of_map_to_list.
Qed.

(** The key a raw key resolves to is its canonical key. *)
Lemma getSetter_canonical s i raw evs :
  EntryValSetterMap s !! canonical s raw = Some evs ->
  getSetter s i raw = inl (canonical s raw, evs).
Proof.
  unfold canonical, getSetter.
  destruct (EntryValSetterMap s !! raw) as [evs'|] eqn:E; simpl.
  - rewrite E. now intros [= ->].
  - destruct (EntryValSMAliases s !! raw) as [a|]; simpl.
    + now intros ->.
    + intros H. congruence.
Qed.

Lemma getSetter_inl s i raw k evs :
  getSetter s i raw = inl (k, evs) ->
  k = canonical s raw /\ EntryValSetterMap s !! k = Some evs.
Proof.
  unfold canonical, getSetter.
  destruct (EntryValSetterMap s !! raw) as [evs'|] eqn:E.
  - now intros [= <- <-].
  - destruct (EntryValSMAliases s !! raw) as [a|]; simpl; [|discriminate].
    destruct (EntryValSetterMap s !! a) as [evs'|] eqn:E'; [|discriminate].
    now intros [= <- <-].
Qed.

(** C6: a raw key that is a key of the setter map resolves to itself; one
    that is not, and is an alias whose target is a key of the setter map,
    resolves to the target; any other gives an error that holds the
    position of the entry counted from one, and the alternatives the
    finder picks, three at most, among the keys of the setter map and the
    aliases. *)
Theorem getSetter_resolution s (i : nat) (evKey : string) :
  (forall evs,
     EntryValSetterMap s !! evKey = Some evs ->
     getSetter s i evKey = inl (evKey, evs)) /\
  (forall aliasKey evs,
     EntryValSetterMap s !! evKey = None ->
     EntryValSMAliases s !! evKey = Some aliasKey ->
     EntryValSetterMap s !! aliasKey = Some evs ->
     getSetter s i evKey = inl (aliasKey, evs)) /\
  (EntryValSetterMap s !! evKey = None ->
   (forall aliasKey,
      EntryValSMAliases s !! evKey = Some aliasKey ->
      EntryValSetterMap s !! aliasKey = None) ->
   exists alts,
     getSetter s i evKey = inr (ErrBadSubValueName evKey (S i) alts) /\
     alts = strdist.FindNStrLike 3 evKey
              (maps_Keys (EntryValSetterMap s) ++ maps_Keys (EntryValSMAliases s))%list /\
     (strdist.Finder_contract Fd ->
      (List.length alts <= 3)%nat /\
      forall a, a ∈ alts ->
        is_Some (EntryValSetterMap s !! a) \/ is_Some (EntryValSMAliases s !! a))).
Proof.
  unfold getSetter. repeat split.
  - now intros evs ->.
  - now intros aliasKey evs -> -> ->.
  - intros -> Halias. eexists. split; [|split; [reflexivity|]].
    + destruct (EntryValSMAliases s !! evKey) as [a|]; simpl.
      * rewrite (Halias a eq_refl). now rewrite Nat.add_1_r.
      * now rewrite Nat.add_1_r.
    + intros Hc. destruct (Hc 3%nat evKey
        (maps_Keys (EntryValSetterMap s) ++ maps_Keys (EntryValSMAliases s))%list)
        as [Hlen Hin].
      split; [exact Hlen|]. intros a Ha. apply Hin in Ha.
      apply elem_of_app in Ha as [Ha|Ha]; apply elem_of_maps_Keys in Ha; auto.
Qed.

(** C9: a parameter value with an equals sign after the name and no match
    of the assignment pattern in what follows it (nothing, or white space
    only, or some other text) gives an error and the zero named value,
    and with a name that passes the name check the error says that no
    value can be got from the parameter; whether fields must be set plays
    no part. *)
Theorem no_assignment_is_an_error s (paramVal name val : string) :
  strings.Cut paramVal "=" = (name, val, true) ->
  re.subValueRE_FindAllStringSubmatch val = [] \/ all_chars re.is_space val = true ->
  (exists e, (GetNamedValue s paramVal).2 = Some e) /\
  (GetNamedValue s paramVal).1.2 = zero /\
  (checkParamPartName s name = None ->
   GetNamedValue s paramVal
   = (set_EntryVal s (DfltEntryVal s), zero, Some (ErrNoValues val))).
Proof.
  intros Hcut Hno.
  assert (Hnil : re.subValueRE_FindAllStringSubmatch val = [])
    by (destruct Hno; auto using FindAll_space).
  destruct (checkParamPartName s name) as [e|] eqn:Hname.
  - rewrite (GetNamedValue_bad_name _ _ _ _ _ _ Hcut Hname). simpl.
    split; [eauto|]. split; [reflexivity | discriminate].
  - rewrite (GetNamedValue_fields _ _ _ _ Hcut Hname). cbv zeta.
    rewrite Hnil. simpl. split; [eauto|]. split; reflexivity.
Qed.

End resolution.

(** ** The loop over the matches *)

Section loop.
Context {T : Type} `{ZeroT : !Zero T} `{Fd : !strdist.Finder}.
Implicit Types (s : MultiSetterBase T) (dups : gmap string string).

Lemma canonical_set_EntryVal s ev raw :
  canonical (set_EntryVal s ev) raw = canonical s raw.
Proof. reflexivity. Qed.

Lemma getSetter_set_EntryVal s ev i raw :
  getSetter (set_EntryVal s ev) i raw = getSetter s i raw.
Proof. reflexivity. Qed.

(** An entry whose key was set before. *)
Lemma setWithSubval_twice s val i w rk v dups k evs prev :
  strings.HasPrefix val w = true ->
  getSetter s i rk = inl (k, evs) ->
  dups !! k = Some prev ->
  setWithSubval s val i [w; rk; v] dups
  = (s, dups, strings.TrimPrefix val w, Some (ErrSetTwice k prev w (i + 1))).
Proof.
  unfold setWithSubval. cbn [List.length Nat.eqb expectedRegexpSubmatchLength
    negb nth wholeValIdx keyIdx valIdx].
  now intros -> -> ->.
Qed.

(** An entry that is applied: it is at the front of the text, its key
    resolves and was not set before. *)
Lemma setWithSubval_applied s val i sVal dups s' dups' val' :
  setWithSubval s val i sVal dups = (s', dups', val', None) ->
  exists w rk v evs,
    sVal = [w; rk; v] /\
    strings.HasPrefix val w = true /\
    val' = strings.TrimPrefix val w /\
    getSetter s i rk = inl (canonical s rk, evs) /\
    dups !! canonical s rk = None /\
    dups' = <[canonical s rk := w]> dups.
Proof.
  unfold setWithSubval.
  destruct sVal as [|w [|rk [|v [|? ?]]]]; try discriminate.
  cbn [List.length Nat.eqb expectedRegexpSubmatchLength
    negb nth wholeValIdx keyIdx valIdx].
  destruct (strings.HasPrefix val w) eqn:Hp; simpl; [|discriminate].
  destruct (getSetter s i rk) as [[k evs]|e] eqn:Hg; [|discriminate].
  destruct (getSetter_inl _ _ _ _ _ Hg) as [-> Hevs].
  destruct (dups !! canonical s rk) eqn:Hd; [discriminate|].
  intros H. exists w, rk, v, evs.
  repeat case_match; simplify_eq. auto 10.
Qed.

(** After the entries [pre] are applied, [dups] maps the canonical key of
    each to its text, and keeps what it held. *)
Lemma setWithSubvals_dups pre : forall s val i dups s' dups' val',
  setWithSubvals s val i pre dups = (s', dups', val', None) ->
  (forall k x, dups !! k = Some x -> dups' !! k = Some x) /\
  (forall w rk v, [w; rk; v] ∈ pre -> dups' !! canonical s rk = Some w).
Proof.
  induction pre as [|sVal pre IH]; simpl; intros s val i dups s' dups' val' H.
  - simplify_eq. split; [auto|]. intros w rk v Hin. inversion Hin.
  - destruct (setWithSubval s val i sVal dups) as [[[s1 d1] v1] [e1|]] eqn:E;
      [discriminate|].
    pose proof (setWithSubval_receiver _ _ _ _ _ _ _ _ _ E) as [ev ->].
    apply setWithSubval_applied in E
      as (w0 & rk0 & v0 & evs & -> & _ & _ & _ & Hnone & ->).
    apply IH in H as [Hmono Htok].
    assert (Hmono' : forall k x, dups !! k = Some x -> dups' !! k = Some x).
    { intros k x Hk. apply Hmono. rewrite lookup_insert_ne; [exact Hk|].
      intros <-. congruence. }
    split; [exact Hmono'|].
    intros w rk v Hin. apply elem_of_cons in Hin as [Heq|Hin].
    + simplify_eq. apply Hmono. apply lookup_insert_eq.
    + apply Htok in Hin. now rewrite canonical_set_EntryVal in Hin.
Qed.

(** C4: when an entry names a field by an alias and a later entry names it
    by its canonical key, or the other way round, and nothing fails
    before the later entry, [GetNamedValue] returns the error of a value
    set twice: it holds the canonical key, the text of the earlier entry,
    the text of the later entry and the position of the later entry
    counted from one.  The later value is not applied: the receiver is as
    the entries before left it. *)
Theorem alias_and_key_set_twice s (paramVal name val : string)
    (pre post : list (list string)) (alias k : string) (evs : EntryValSetter T)
    (w1 k1 v1 w2 k2 v2 : string) σ dups val' :
  strings.Cut paramVal "=" = (name, val, true) ->
  checkParamPartName s name = None ->
  EntryValSMAliases s !! alias = Some k ->
  EntryValSetterMap s !! k = Some evs ->
  EntryValSetterMap s !! alias = None ->
  re.subValueRE_FindAllStringSubmatch val = (pre ++ [w2; k2; v2] :: post)%list ->
  [w1; k1; v1] ∈ pre ->
  (k1 = alias /\ k2 = k) \/ (k1 = k /\ k2 = alias) ->
  setWithSubvals (set_EntryVal s (DfltEntryVal s)) val 0 pre ∅
  = (σ, dups, val', None) ->
  strings.HasPrefix val' w2 = true ->
  GetNamedValue s paramVal
  = (σ, zero, Some (ErrSetTwice k w1 w2 (List.length pre + 1))).
Proof.
  intros Hcut Hname Halias Hk Hnk Hall Hin Hkeys Hpre Hfront.
  rewrite (GetNamedValue_fields _ _ _ _ Hcut Hname). cbv zeta.
  rewrite Hall. rewrite setWithSubvals_app, Hpre.
  destruct pre as [|p0 pre0] eqn:Epre; [inversion Hin|]. rewrite <- Epre in *.
  assert (Hcanon_alias : canonical s alias = k)
    by (unfold canonical; now rewrite Hnk, Halias).
  assert (Hcanon_k : canonical s k = k)
    by (unfold canonical; now rewrite Hk).
  pose proof (setWithSubvals_receiver _ _ _ _ _ _ _ _ _ Hpre) as [ev Hσ].
  apply setWithSubvals_dups in Hpre as [_ Htok].
  specialize (Htok _ _ _ Hin). rewrite canonical_set_EntryVal in Htok.
  assert (Hprev : dups !! k = Some w1)
    by (destruct Hkeys as [[-> _]|[-> _]]; congruence).
  assert (Hget : getSetter σ (0 + List.length pre) k2 = inl (k, evs)).
  { subst σ. rewrite !getSetter_set_EntryVal.
    destruct Hkeys as [[_ ->]|[_ ->]].
    - pose proof (getSetter_canonical s (0 + List.length pre) k evs) as G.
      rewrite Hcanon_k in G. exact (G Hk).
    - pose proof (getSetter_canonical s (0 + List.length pre) alias evs) as G.
      rewrite Hcanon_alias in G. exact (G Hk). }
  cbn [setWithSubvals].
  rewrite (setWithSubval_twice _ _ _ _ _ _ _ _ _ _ Hfront Hget Hprev).
  subst pre. reflexivity.
Qed.

End loop.

(** ** Fields that must be set, and text left at the end *)

Section mandatory.
Context {T : Type} `{ZeroT : !Zero T} `{Fd : !strdist.Finder}.
Implicit Types (s : MultiSetterBase T) (dups : gmap string string).

Lemma mustBeSetMissing_None s dups :
  (forall k evs, EntryValSetterMap s !! k = Some evs ->
                 MustBeSet evs = true -> is_Some (dups !! k)) ->
  mustBeSetMissing s dups = None.
Proof.
  intros Hall. unfold mustBeSetMissing.
  destruct (List.find _ _) as [[k evs]|] eqn:E; [|reflexivity].
  apply List.find_some in E as [Hin Hp]. simpl in Hp.
  apply list_elem_of_In, elem_of_map_to_list in Hin.
  apply andb_prop in Hp as [Hm Hd].
  specialize (Hall _ _ Hin Hm).
  rewrite bool_decide_eq_true_2 in Hd by exact Hall. discriminate.
Qed.

Lemma mustBeSetMissing_Some s dups k :
  mustBeSetMissing s dups = Some k ->
  exists evs, EntryValSetterMap s !! k = Some evs /\
              MustBeSet evs = true /\ dups !! k = None.
Proof.
  unfold mustBeSetMissing.
  destruct (List.find _ _) as [[k' evs]|] eqn:E; [|discriminate].
  intros [= <-]. apply List.find_some in E as [Hin Hp]. simpl in Hp.
  apply list_elem_of_In, elem_of_map_to_list in Hin.
  apply andb_prop in Hp as [Hm Hd]. exists evs. repeat split; [exact Hin | exact Hm |].
  apply negb_true_iff, bool_decide_eq_false in Hd.
  destruct (dups !! k') eqn:E'; [|reflexivity]. exfalso. apply Hd. eauto.
Qed.

Lemma mustBeSetMissing_is_Some s dups k evs :
  EntryValSetterMap s !! k = Some evs -> MustBeSet evs = true ->
  dups !! k = None ->
  is_Some (mustBeSetMissing s dups).
Proof.
  intros Hk Hm Hd. destruct (mustBeSetMissing s dups) eqn:E; [eauto|].
  unfold mustBeSetMissing in E.
  destruct (List.find _ _) as [kv|] eqn:E'; [discriminate|].
  apply elem_of_map_to_list, list_elem_of_In in Hk.
  pose proof (List.find_none _ _ E' _ Hk) as Hp. simpl in Hp.
  rewrite Hm, Hd in Hp. simpl in Hp. discriminate.
Qed.

(** C7, amended: when the matches of the field list (there is one at
    least) are consumed from the front one after the other and text is
    left, [GetNamedValue] never succeeds.  With a name that passes the
    name check the error is that of the unexpected text at the end if
    every field that must be set was set; if one was not, the error is
    that of a field not set, which is checked first. *)
Theorem text_left_at_the_end s (paramVal name val : string) σ dups (val' : string) :
  strings.Cut paramVal "=" = (name, val, true) ->
  re.subValueRE_FindAllStringSubmatch val <> [] ->
  setWithSubvals (set_EntryVal s (DfltEntryVal s)) val 0
    (re.subValueRE_FindAllStringSubmatch val) ∅ = (σ, dups, val', None) ->
  val' <> "" ->
  (exists e, (GetNamedValue s paramVal).2 = Some e) /\
  (GetNamedValue s paramVal).1.2 = zero /\
  (checkParamPartName s name = None ->
   ((forall k evs, EntryValSetterMap s !! k = Some evs ->
                   MustBeSet evs = true -> is_Some (dups !! k)) ->
    GetNamedValue s paramVal = (σ, zero, Some (ErrTextAtEnd val'))) /\
   (forall k evs, EntryValSetterMap s !! k = Some evs ->
                  MustBeSet evs = true -> dups !! k = None ->
    exists k', GetNamedValue s paramVal = (σ, zero, Some (ErrMustBeSet k')) /\
               dups !! k' = None)).
Proof.
  intros Hcut Hne Hloop Hleft.
  pose proof (setWithSubvals_receiver _ _ _ _ _ _ _ _ _ Hloop) as [ev Hσ].
  assert (Hfields : checkParamPartName s name = None ->
    GetNamedValue s paramVal =
    match mustBeSetMissing σ dups with
    | Some evKey => (σ, zero, Some (ErrMustBeSet evKey))
    | None => (σ, zero, Some (ErrTextAtEnd val'))
    end).
  { intros Hname. rewrite (GetNamedValue_fields _ _ _ _ Hcut Hname). cbv zeta.
    destruct (re.subValueRE_FindAllStringSubmatch val) eqn:E; [congruence|].
    rewrite Hloop. destruct (mustBeSetMissing σ dups); [reflexivity|].
    case_decide; [reflexivity | contradiction]. }
  destruct (checkParamPartName s name) as [e|] eqn:Hname.
  - rewrite (GetNamedValue_bad_name _ _ _ _ _ _ Hcut Hname). simpl.
    split; [eauto|]. split; [reflexivity | discriminate].
  - rewrite (Hfields eq_refl).
    split; [destruct (mustBeSetMissing σ dups); simpl; eauto|].
    split; [destruct (mustBeSetMissing σ dups); reflexivity|].
    intros _. split.
    + intros Hall. rewrite mustBeSetMissing_None; [reflexivity|].
      subst σ. exact Hall.
    + intros k evs Hk Hm Hd.
      destruct (mustBeSetMissing σ dups) as [k'|] eqn:E.
      * exists k'. split; [reflexivity|].
        now apply mustBeSetMissing_Some in E as (? & _ & _ & ?).
      * exfalso. subst σ.
        destruct (mustBeSetMissing_is_Some (set_EntryVal (set_EntryVal s (DfltEntryVal s)) ev) dups k evs Hk Hm Hd)
          as [? ?]. congruence.
Qed.


(** The fields that must be set are among [keys], by a check that
    computes. *)
Lemma MustBeSet_among s (keys : list string) :
  forallb (fun kv : string * EntryValSetter T =>
             implb (MustBeSet kv.2) (bool_decide (kv.1 ∈ keys)))
    (map_to_list (EntryValSetterMap s)) = true ->
  forall k evs, EntryValSetterMap s !! k = Some evs ->
                MustBeSet evs = true -> k ∈ keys.
Proof.
  intros Hall k evs Hk Hm.
  apply elem_of_map_to_list, list_elem_of_In in Hk.
  pose proof (proj1 (List.forallb_forall _ _) Hall _ Hk) as Hp. simpl in Hp.
  rewrite Hm in Hp. simpl in Hp. now apply bool_decide_eq_true in Hp.
Qed.

End mandatory.

(** ** The check of the keys *)

Section key_check.

(** [evsKeyRE.MatchString] accepts every string that holds a letter or an
    underscore somewhere. *)
Lemma evsKeyRE_MatchString_spec k :
  re.evsKeyRE_MatchString k
  = negb (all_chars (fun c => negb (re.is_key_start c)) k).
Proof.
  induction k as [|c k IH]; [reflexivity|].
  cbn [re.evsKeyRE_MatchString all_chars]. unfold re.match_key.
  destruct (re.is_key_start c); simpl.
  - now destruct (re.span re.is_key_char k).
  - exact IH.
Qed.

(** A key of the identifier grammar passes the check of the keys. *)
Lemma identifier_grammar_MatchString k :
  identifier_grammar k = true -> re.evsKeyRE_MatchString k = true.
Proof.
  destruct k as [|c k]; [discriminate|]. simpl.
  intros H. apply andb_prop in H as [Hc _].
  unfold re.match_key. rewrite Hc. now destruct (re.span re.is_key_char k).
Qed.

End key_check.

(** ** Well-formed field lists *)

Section well_formed_lists.
Context {T F : Type} `{ZeroT : !Zero T} `{Fd : !strdist.Finder}.
Context (put : string -> F -> T -> T) (conv : string -> string -> F).
Implicit Types (s : MultiSetterBase T) (dups : gmap string string)
  (a : assignment) (l : list assignment).

Lemma runPostActionFuncs_id (fs : list (MultiSetterActionFunc T)) k v :
  (forall f, f ∈ fs -> forall r, f k v r = (r, None)) ->
  forall r, runPostActionFuncs fs k v r = (r, None).
Proof.
  induction fs as [|f fs IH]; intros Hfs r; simpl; [reflexivity|].
  rewrite (Hfs f) by apply list_elem_of_here.
  apply IH. intros g Hg. apply Hfs. now apply list_elem_of_further.
Qed.

Lemma well_formed_lstrip a : well_formed a = true -> well_formed (lstrip a) = true.
Proof.
  unfold well_formed. simpl. rewrite !andb_true_iff. tauto.
Qed.

(** The white space before the key of an assignment is what the star
    takes of its text. *)
Lemma span_render a t :
  well_formed a = true ->
  re.span re.is_space (render a ++ t) = (a_ws1 a, render (lstrip a) ++ t).
Proof.
  destruct a as [ws1 key ws2 ws3 val ws4]. unfold well_formed, render, lstrip.
  simpl. rewrite !andb_true_iff. intros [[[[[H1 Hk] _] _] _] _].
  destruct key as [|c key]; [discriminate|]. simpl in Hk.
  apply andb_prop in Hk as [Hc _].
  rewrite !append_assoc, !append_cons, !append_nil_l.
  rewrite (span_run _ ws1 _ H1).
  rewrite (span_stop re.is_space c _ (key_start_not_space c Hc)).
  simpl. now rewrite append_nil_r.
Qed.

Lemma render_lstrip a : render a = a_ws1 a ++ render (lstrip a).
Proof. reflexivity. Qed.

(** One turn of the loop on the match of a well-formed assignment. *)
Lemma setWithSubval_rendered s a sp rest i dups evs :
  EntryValSetterMap s !! canonical s (a_key a) = Some evs ->
  dups !! canonical s (a_key a) = None ->
  sets_field s put conv a ->
  setWithSubval s (render a ++ sp ++ rest) i
    [render a ++ sp; a_key a; a_val a] dups
  = (set_EntryVal s (put (canonical s (a_key a))
                         (conv (canonical s (a_key a)) (a_val a)) (EntryVal s)),
     <[canonical s (a_key a) := render a ++ sp]> dups, rest, None).
Proof.
  intros Hevs Hfresh Hset. unfold setWithSubval.
  cbn [List.length Nat.eqb expectedRegexpSubmatchLength
    negb nth wholeValIdx keyIdx valIdx].
  rewrite <- append_assoc, HasPrefix_append, TrimPrefix_append. simpl negb. cbv iota.
  rewrite (getSetter_canonical _ _ _ _ Hevs), Hfresh.
  destruct (Hset evs Hevs) as [Hsetter Hfuncs].
  rewrite Hsetter, (runPostActionFuncs_id _ _ _ Hfuncs). reflexivity.
Qed.

(** The loop on the matches of a well-formed field list applies every
    assignment in turn and leaves no text. *)
Lemma setWithSubvals_rendered l : forall a s i dups,
  well_formed a = true ->
  Forall (fun b => well_formed b = true) l ->
  Forall (fun b => is_Some (EntryValSetterMap s !! canonical s (a_key b))) (a :: l) ->
  NoDup ((fun b => canonical s (a_key b)) <$> a :: l) ->
  Forall (fun b => dups !! canonical s (a_key b) = None) (a :: l) ->
  Forall (sets_field s put conv) (a :: l) ->
  exists dups',
    setWithSubvals s (render_all (a :: l)) i
      (re.subValueRE_FindAllStringSubmatch (render_all (a :: l))) dups
    = (set_EntryVal s (assigned s put conv (a :: l) (EntryVal s)), dups', "", None) /\
    Forall (fun b => is_Some (dups' !! canonical s (a_key b))) (a :: l) /\
    (forall k, is_Some (dups !! k) -> is_Some (dups' !! k)).
Proof.
  induction l as [|a' l IH]; intros a s i dups Hwa Hwl Hres Hnd Hfresh Hset.
  - cbn [render_all]. rewrite append_nil_r.
    pose proof (match_subValue_render a "" Hwa) as Hm.
    rewrite append_nil_r in Hm. simpl in Hm. rewrite append_nil_r in Hm.
    rewrite FindAll_unfold, (find_subValue_match _ _ Hm). cbn [re.m_whole re.m_key re.m_val re.m_rest].
    change (re.subValueRE_FindAllStringSubmatch "") with (@nil (list string)).
    cbn [setWithSubvals].
    apply Forall_cons in Hres as [[evs Hevs] _].
    apply Forall_cons in Hfresh as [Hfa _].
    apply Forall_cons in Hset as [Hsa _].
    pose proof (setWithSubval_rendered s a "" "" i dups evs Hevs Hfa Hsa) as Hstep.
    rewrite append_nil_l, !append_nil_r in Hstep. rewrite Hstep.
    eexists. split; [reflexivity|]. split.
    + apply Forall_cons. split; [|constructor]. rewrite lookup_insert_eq. eauto.
    + intros k [x Hx]. destruct (decide (canonical s (a_key a) = k)) as [<-|Hne].
      * rewrite lookup_insert_eq. eauto.
      * rewrite lookup_insert_ne by exact Hne. eauto.
  - apply Forall_cons in Hwl as [Hwa' Hwl].
    cbn [render_all].
    pose proof (match_subValue_render a (render a' ++ render_all l) Hwa) as Hm.
    rewrite (span_render a' _ Hwa') in Hm. simpl in Hm.
    rewrite FindAll_unfold, (find_subValue_match _ _ Hm). cbn [re.m_whole re.m_key re.m_val re.m_rest].
    cbn [setWithSubvals].
    apply Forall_cons in Hres as [[evs Hevs] Hres].
    apply Forall_cons in Hfresh as [Hfa Hfresh].
    apply Forall_cons in Hset as [Hsa Hset].
    rewrite fmap_cons in Hnd. apply NoDup_cons in Hnd as [Hnotin Hnd].
    pose proof (setWithSubval_rendered s a (a_ws1 a') (render (lstrip a') ++ render_all l)
                  i dups evs Hevs Hfa Hsa) as Hstep.
    assert (Htxt : render a ++ render a' ++ render_all l
                   = render a ++ a_ws1 a' ++ render (lstrip a') ++ render_all l).
    { f_equal. rewrite (render_lstrip a'). now rewrite append_assoc. }
    rewrite Htxt, Hstep. clear Htxt Hstep Hm.
    set (s1 := set_EntryVal s _). set (dups1 := <[_ := _]> dups).
    destruct (IH (lstrip a') s1 (S i) dups1) as (dups' & Hloop & Hin & Hmono).
    + now apply well_formed_lstrip.
    + exact Hwl.
    + apply Forall_cons in Hres as [Ha' Hres]. apply Forall_cons. split; assumption.
    + exact Hnd.
    + apply Forall_cons in Hfresh as [Ha' Hfresh].
      assert (Hne : forall b, b ∈ a' :: l ->
                canonical s (a_key a) <> canonical s (a_key b)).
      { intros b Hb Heq. apply Hnotin. rewrite Heq.
        now apply (list_elem_of_fmap_2 (fun b => canonical s (a_key b))). }
      apply Forall_cons. split.
      * subst dups1. rewrite lookup_insert_ne; [exact Ha'|].
        exact (Hne a' (list_elem_of_here _ _)).
      * apply Forall_forall. intros b Hb. subst dups1.
        rewrite lookup_insert_ne.
        -- now apply (proj1 (Forall_forall _ _) Hfresh).
        -- apply Hne. now apply list_elem_of_further.
    + apply Forall_cons in Hset as [Ha' Hset]. apply Forall_cons. split; assumption.
    + exists dups'. split; [exact Hloop|]. split.
      * apply Forall_cons in Hin as [Ha' Hin].
        apply Forall_cons. split; [|apply Forall_cons; split; assumption].
        apply Hmono. subst dups1. rewrite lookup_insert_eq. eauto.
      * intros k [x Hx]. apply Hmono. subst dups1.
        destruct (decide (canonical s (a_key a) = k)) as [<-|Hne].
        -- rewrite lookup_insert_eq. eauto.
        -- rewrite lookup_insert_ne by exact Hne. eauto.
Qed.

(** C1, amended: for a name that passes the name check (it is not empty
    and the allow-list, when it has entries, holds it) and a field list
    of one well-formed assignment or more, whose keys resolve to distinct
    keys of the setter map among which is every key that must be set, if
    the setter of each assignment sets its field to the value converted
    from the text and the post-action functions succeed and leave the
    entry value as it is, then [GetNamedValue] returns no error and the
    name with the default entry value in which the fields assigned, and
    no others, are set to the converted values.  This holds for every
    configuration, whether or not it passes the configuration checks. *)
Theorem well_formed_value_is_parsed s (paramVal name : string) l :
  strings.Cut paramVal "=" = (name, render_all l, true) ->
  checkParamPartName s name = None ->
  l <> [] ->
  Forall (fun a => well_formed a = true) l ->
  Forall (fun a => is_Some (EntryValSetterMap s !! canonical s (a_key a))) l ->
  NoDup ((fun a => canonical s (a_key a)) <$> l) ->
  (forall k evs,
     EntryValSetterMap s !! k = Some evs -> MustBeSet evs = true ->
     k ∈ (fun a => canonical s (a_key a)) <$> l) ->
  Forall (sets_field s put conv) l ->
  GetNamedValue s paramVal
  = (set_EntryVal s (assigned s put conv l (DfltEntryVal s)),
     {| NamedValue.Name := name;
        NamedValue.Value := assigned s put conv l (DfltEntryVal s) |},
     None).
Proof.
  intros Hcut Hname Hnil Hwf Hres Hnd Hmust Hset.
  destruct l as [|a l]; [contradiction|]. clear Hnil.
  apply Forall_cons in Hwf as [Hwa Hwl].
  rewrite (GetNamedValue_fields _ _ _ _ Hcut Hname). cbv zeta.
  destruct (setWithSubvals_rendered l a (set_EntryVal s (DfltEntryVal s)) 0 ∅
              Hwa Hwl Hres Hnd) as (dups' & Hloop & Hin & _).
  { apply Forall_forall. intros b _. apply lookup_empty. }
  { exact Hset. }
  assert (Hne : re.subValueRE_FindAllStringSubmatch (render_all (a :: l)) <> []).
  { cbn [render_all].
    rewrite FindAll_unfold,
      (find_subValue_match _ _ (match_subValue_render a _ Hwa)).
    discriminate. }
  destruct (re.subValueRE_FindAllStringSubmatch (render_all (a :: l))) eqn:E;
    [contradiction|].
  rewrite Hloop.
  rewrite mustBeSetMissing_None.
  - case_decide; [contradiction | reflexivity].
  - intros k evs Hk Hm. specialize (Hmust k evs Hk Hm).
    apply list_elem_of_fmap in Hmust as (b & -> & Hb).
    exact (proj1 (Forall_forall _ _) Hin b Hb).
Qed.

End well_formed_lists.

(** * The setter of the [algo] parameter at work *)

Section sample_facts.
Import Sample.

Lemma finder_contract : strdist.Finder_contract finder.
Proof.
  intros n s pop. unfold strdist.FindNStrLike, finder. split.
  - rewrite length_take. lia.
  - intros x Hx. apply elem_of_take in Hx as (i & Hi & _).
    apply list_elem_of_lookup_2 in Hi.
    apply list_elem_of_In, List.filter_In in Hi as [Hi _].
    now apply list_elem_of_In.
Qed.

(** C3: a field marked [MustBeSet] (a field for which, by the comment of
    the source, not calling the setter forces an error) and a parameter
    value that is a name only: [GetNamedValue] returns no error, and the
    name with the default entry value. *)
Theorem name_only_skips_MustBeSet :
  MustBeSet <$> (EntryValSetterMap mustSetter !! "minStrLen") = Some true /\
  strings.Cut "cosine" "=" = ("cosine", "", false) /\
  (GetNamedValue mustSetter "cosine").2 = None /\
  (GetNamedValue mustSetter "cosine").1.2
  = {| NamedValue.Name := "cosine"; NamedValue.Value := algoDetailsDflt |}.
Proof. vm_compute. repeat split; reflexivity. Qed.

(** C5: a setter map whose key is not of the identifier grammar (it holds
    hyphens) passes [checkEntryValSetters] and the whole of
    [CheckMultiSetter] without a panic: the check of the keys looks for a
    match of the key expression anywhere in the key. *)
Theorem malformed_key_passes_the_check :
  EntryValSetterMap hyphenSetter
  = {[ "n-gram-len" := evs (Int_Setter set_nGramLen (Nat.ltb 0)) [] false ]} /\
  identifier_grammar "n-gram-len" = false /\
  re.evsKeyRE_MatchString "n-gram-len" = true /\
  checkEntryValSetters hyphenSetter = None /\
  CheckMultiSetter hyphenSetter = None.
Proof. repeat split; vm_compute; reflexivity. Qed.

End sample_facts.

(** ** The properties at given parameter values *)

(** A parameter value with text after its last assignment, on the setter
    of the [algo] parameter: the error, the zero named value, and the
    containers left as they were. *)
Lemma failed_parse_is_atomic_at_text_left :
  let pv := lit "cosine=nGramLen='2' xyz" in
  (GetNamedValue Sample.algoDetailsSetter pv).2 = Some (ErrTextAtEnd "xyz") /\
  (GetNamedValue Sample.algoDetailsSetter pv).1.2 = zero /\
  (forall m : MapMultiSetter.t Sample.algoParams,
     MapMultiSetter.Base m = Sample.algoDetailsSetter ->
     MapMultiSetter.Value (MapMultiSetter.SetWithVal m pv).1
     = MapMultiSetter.Value m) /\
  (forall l : ListMultiSetter.t Sample.algoParams,
     ListMultiSetter.Base l = Sample.algoDetailsSetter ->
     ListMultiSetter.Value (ListMultiSetter.SetWithVal l pv).1
     = ListMultiSetter.Value l).
Proof.
  intros pv.
  assert (Herr : (GetNamedValue Sample.algoDetailsSetter pv).2
                 = Some (ErrTextAtEnd "xyz")) by (vm_compute; reflexivity).
  destruct (failed_parse_is_atomic Sample.algoDetailsSetter pv _ Herr)
    as (Hz & Hm & Hl).
  split; [exact Herr|]. split; [exact Hz|]. split.
  - intros m Hb. exact (proj2 (Hm m Hb)).
  - intros l Hb. exact (proj2 (Hl l Hb)).
Defined.

(** An alias and then the key it stands for. *)
Lemma alias_and_key_set_twice_at_ngLen :
  let pv := lit "cosine=ngLen='2' nGramLen='3'" in
  EntryValSMAliases Sample.algoDetailsSetter !! "ngLen" = Some "nGramLen" /\
  GetNamedValue Sample.algoDetailsSetter pv
  = (set_EntryVal Sample.algoDetailsSetter
       (Sample.set_nGramLen 2 Sample.algoDetailsDflt),
     zero,
     Some (ErrSetTwice "nGramLen" (lit "ngLen='2' ") (lit "nGramLen='3'") 2)).
Proof.
  intros pv. split; [vm_compute; reflexivity|].
  pose (s0 := set_EntryVal Sample.algoDetailsSetter Sample.algoDetailsDflt).
  pose (pre := [[lit "ngLen='2' "; "ngLen"; "2"]]).
  pose (r := setWithSubvals s0 (lit "ngLen='2' nGramLen='3'") 0 pre ∅).
  pose proof (alias_and_key_set_twice Sample.algoDetailsSetter pv "cosine"
    (lit "ngLen='2' nGramLen='3'") pre [] "ngLen" "nGramLen"
    (Sample.evs (Sample.Int_Setter Sample.set_nGramLen (Nat.ltb 0)) [] false)
    (lit "ngLen='2' ") "ngLen" "2" (lit "nGramLen='3'") "nGramLen" "3"
    r.1.1.1 r.1.1.2 r.1.2) as H.
  assert (Hσ : r.1.1.1 = set_EntryVal Sample.algoDetailsSetter
                 (Sample.set_nGramLen 2 Sample.algoDetailsDflt))
    by (vm_compute; reflexivity).
  rewrite <- Hσ. apply H.
  - vm_compute; reflexivity.
  - vm_compute; reflexivity.
  - vm_compute; reflexivity.
  - vm_compute; reflexivity.
  - vm_compute; reflexivity.
  - vm_compute; reflexivity.
  - apply list_elem_of_here.
  - left. split; reflexivity.
  - vm_compute; reflexivity.
  - vm_compute; reflexivity.
Defined.

(** A key that is neither a key of the setter map nor an alias, at the
    second entry. *)
Lemma getSetter_resolution_at_ngLex :
  EntryValSetterMap Sample.algoDetailsSetter !! "ngLex" = None /\
  EntryValSMAliases Sample.algoDetailsSetter !! "ngLex" = None /\
  exists alts,
    getSetter Sample.algoDetailsSetter 1 "ngLex"
    = inr (ErrBadSubValueName "ngLex" 2 alts) /\
    (List.length alts <= 3)%nat /\
    forall a, a ∈ alts ->
      is_Some (EntryValSetterMap Sample.algoDetailsSetter !! a) \/
      is_Some (EntryValSMAliases Sample.algoDetailsSetter !! a).
Proof.
  assert (Hk : EntryValSetterMap Sample.algoDetailsSetter !! "ngLex" = None)
    by (vm_compute; reflexivity).
  assert (Ha : EntryValSMAliases Sample.algoDetailsSetter !! "ngLex" = None)
    by (vm_compute; reflexivity).
  split; [exact Hk|]. split; [exact Ha|].
  destruct (getSetter_resolution Sample.algoDetailsSetter 1 "ngLex")
    as (_ & _ & H).
  destruct (H Hk) as (alts & Hget & _ & Hc).
  - intros aliasKey Hal. rewrite Ha in Hal. discriminate.
  - exists alts. split; [exact Hget|]. exact (Hc finder_contract).
Defined.

(** An equals sign and nothing after it, on a setter with no field that
    must be set. *)
Lemma no_assignment_is_an_error_at_equals :
  strings.Cut "cosine=" "=" = ("cosine", "", true) /\
  mustBeSetMissing Sample.algoDetailsSetter ∅ = None /\
  GetNamedValue Sample.algoDetailsSetter "cosine="
  = (set_EntryVal Sample.algoDetailsSetter Sample.algoDetailsDflt, zero,
     Some (ErrNoValues "")).
Proof.
  assert (Hcut : strings.Cut "cosine=" "=" = ("cosine", "", true))
    by (vm_compute; reflexivity).
  split; [exact Hcut|]. split; [vm_compute; reflexivity|].
  destruct (no_assignment_is_an_error Sample.algoDetailsSetter
              "cosine=" "cosine" "" Hcut) as (_ & _ & H).
  - right. reflexivity.
  - apply H. vm_compute; reflexivity.
Defined.

(** C7, as stated, fails: the field list of this parameter value has one
    match, it is consumed from the front and the text xyz is left, and the
    error is not that of the text left but that of the field [minStrLen],
    which must be set and is not. *)
Lemma text_left_at_the_end_counterexample :
  let pv := lit "cosine=nGramLen='2' xyz" in
  let val := lit "nGramLen='2' xyz" in
  let s0 := set_EntryVal Sample.mustSetter (DfltEntryVal Sample.mustSetter) in
  let loop := setWithSubvals s0 val 0 (re.subValueRE_FindAllStringSubmatch val) ∅ in
  strings.Cut pv "=" = ("cosine", val, true) /\
  re.subValueRE_FindAllStringSubmatch val = [[lit "nGramLen='2' "; "nGramLen"; "2"]] /\
  loop.2 = None /\ loop.1.2 = "xyz" /\
  (GetNamedValue Sample.mustSetter pv).2 = Some (ErrMustBeSet "minStrLen") /\
  (GetNamedValue Sample.mustSetter pv).2 <> Some (ErrTextAtEnd "xyz").
Proof.
  vm_compute. repeat split; try reflexivity. discriminate.
Qed.

(** Text after the assignment, and no field that must be set. *)
Lemma text_left_at_the_end_at_xyz :
  let pv := lit "cosine=nGramLen='2' xyz" in
  strings.Cut pv "=" = ("cosine", lit "nGramLen='2' xyz", true) /\
  (GetNamedValue Sample.algoDetailsSetter pv).2 = Some (ErrTextAtEnd "xyz") /\
  (GetNamedValue Sample.algoDetailsSetter pv).1.2 = zero.
Proof.
  intros pv.
  assert (Hcut : strings.Cut pv "=" = ("cosine", lit "nGramLen='2' xyz", true))
    by (vm_compute; reflexivity).
  split; [exact Hcut|].
  pose (s0 := set_EntryVal Sample.algoDetailsSetter Sample.algoDetailsDflt).
  pose (r := setWithSubvals s0 (lit "nGramLen='2' xyz") 0
               (re.subValueRE_FindAllStringSubmatch (lit "nGramLen='2' xyz")) ∅).
  destruct (text_left_at_the_end Sample.algoDetailsSetter pv "cosine"
              (lit "nGramLen='2' xyz") r.1.1.1 r.1.1.2 "xyz" Hcut)
    as (_ & _ & H).
  - vm_compute. discriminate.
  - vm_compute; reflexivity.
  - discriminate.
  - destruct H as [H _]; [vm_compute; reflexivity|].
    rewrite H; [split; reflexivity|].
    intros k evs Hk Hm. exfalso.
    assert (Hin : k ∈ @nil string);
      [|inversion Hin].
    revert k evs Hk Hm. apply MustBeSet_among. vm_compute; reflexivity.
Defined.



(** C1, as stated, fails, on the setter of the [algo] parameter, which
    passes its checks and has no field that must be set, and for a name of
    its allow-list: with the empty field list (no assignment after the
    equals sign) [GetNamedValue] returns an error; and with the field list
    that assigns the threshold it returns an entry value in which
    [useGivenThreshold], which the list does not assign, is not at its
    default: the post-action function of the threshold sets it. *)
Lemma well_formed_value_is_parsed_counterexample :
  let s := Sample.algoDetailsSetter in
  let a := Assignment "" "threshold" "" "" "0.5" "" in
  let pv := lit "cosine=threshold='0.5'" in
  CheckMultiSetter s = None /\
  mustBeSetMissing s ∅ = None /\
  checkParamPartName s "cosine" = None /\
  strings.Cut "cosine=" "=" = ("cosine", render_all [], true) /\
  (GetNamedValue s "cosine=").2 = Some (ErrNoValues "") /\
  strings.Cut pv "=" = ("cosine", render_all [a], true) /\
  well_formed a = true /\
  canonical s (a_key a) = "threshold" /\
  (GetNamedValue s pv).2 = None /\
  NamedValue.Value (GetNamedValue s pv).1.2
  = Sample.set_useGivenThreshold true
      (Sample.set_threshold "0.5" Sample.algoDetailsDflt) /\
  NamedValue.Value (GetNamedValue s pv).1.2
  <> Sample.set_threshold "0.5" (DfltEntryVal s).
Proof.
  vm_compute. repeat split; try reflexivity. discriminate.
Qed.

(** Two assignments, one by an alias, on the setter with a field that
    must be set. *)
Lemma well_formed_value_is_parsed_at_two_fields :
  let s := Sample.mustSetter in
  let l := [Assignment "" "minStrLen" "" "" "7" " ";
            Assignment "" "toLower" " " " " "true" ""] in
  let pv := lit "levenshtein=minStrLen='7' toLower = 'true'" in
  strings.Cut pv "=" = ("levenshtein", render_all l, true) /\
  GetNamedValue s pv
  = (set_EntryVal s (Sample.set_mapToLowerCase true
                       (Sample.set_minStrLen 7 Sample.algoDetailsDflt)),
     {| NamedValue.Name := "levenshtein";
        NamedValue.Value := Sample.set_mapToLowerCase true
                              (Sample.set_minStrLen 7 Sample.algoDetailsDflt) |},
     None).
Proof.
  intros s l pv.
  assert (Hcut : strings.Cut pv "=" = ("levenshtein", render_all l, true))
    by (vm_compute; reflexivity).
  split; [exact Hcut|].
  assert (Hk1 : EntryValSetterMap s !! canonical s "minStrLen"
                = Some (Sample.evs (Sample.Int_Setter Sample.set_minStrLen (fun _ => true)) [] true))
    by (vm_compute; reflexivity).
  assert (Hk2 : EntryValSetterMap s !! canonical s "toLower"
                = Some (Sample.evs (Sample.Bool_Setter Sample.set_mapToLowerCase) [] false))
    by (vm_compute; reflexivity).
  pose proof (well_formed_value_is_parsed Sample.put Sample.conv s pv
                "levenshtein" l Hcut) as H.
  assert (Hr : assigned s Sample.put Sample.conv l (DfltEntryVal s)
               = Sample.set_mapToLowerCase true
                   (Sample.set_minStrLen 7 Sample.algoDetailsDflt))
    by (vm_compute; reflexivity).
  rewrite Hr in H. apply H; clear H Hr.
  - vm_compute; reflexivity.
  - discriminate.
  - repeat (constructor; [vm_compute; reflexivity|]). constructor.
  - constructor; [cbv beta; simpl a_key; rewrite Hk1; eauto|].
    constructor; [cbv beta; simpl a_key; rewrite Hk2; eauto|]. constructor.
  - apply (bool_decide_unpack _). vm_compute. exact I.
  - apply MustBeSet_among. vm_compute; reflexivity.
  - constructor; [|constructor; [|constructor]].
    + intros evs Hevs. cbv beta zeta in Hevs. simpl a_key in Hevs.
      rewrite Hk1 in Hevs. injection Hevs as <-. split.
      * intros r. vm_compute; reflexivity.
      * intros f Hf. inversion Hf.
    + intros evs Hevs. cbv beta zeta in Hevs. simpl a_key in Hevs.
      rewrite Hk2 in Hevs. injection Hevs as <-. split.
      * intros r. vm_compute; reflexivity.
      * intros f Hf. inversion Hf.
Defined.

(** * More of the setter and of the program *)

(** ** Cutting a parameter value *)

Section cut_facts.

Lemma HasPrefix_split (p : string) : forall s,
  strings.HasPrefix s p = true -> s = p ++ strings.TrimPrefix s p.
Proof.
  unfold strings.TrimPrefix.
  induction p as [|c p IH]; intros s H; [reflexivity|].
  destruct s as [|d s]; [discriminate|]. rewrite H. simpl in H.
  destruct (Ascii.eqb d c) eqn:E; [|discriminate].
  apply Ascii.eqb_eq in E. subst d.
  rewrite append_cons. f_equal.
  specialize (IH s H). rewrite H in IH. exact IH.
Qed.

Lemma Cut_found (sep : string) : forall s before after,
  strings.Cut s sep = (before, after, true) -> s = before ++ sep ++ after.
Proof.
  induction s as [|c s IH]; intros before after; cbn [strings.Cut].
  - destruct (strings.HasPrefix "" sep) eqn:E; [|discriminate].
    intros [= <- <-]. rewrite append_nil_l. now apply HasPrefix_split.
  - destruct (strings.HasPrefix (String c s) sep) eqn:E.
    + intros [= <- <-]. rewrite append_nil_l. now apply HasPrefix_split.
    + destruct (strings.Cut s sep) as [[b a] f]. intros [= <- <- ->].
      rewrite append_cons. f_equal. now apply IH.
Qed.

Lemma Cut_not_found (sep : string) : forall s before after,
  strings.Cut s sep = (before, after, false) -> before = s /\ after = "".
Proof.
  induction s as [|c s IH]; intros before after; cbn [strings.Cut].
  - destruct (strings.HasPrefix "" sep); [discriminate|]. now intros [= <- <-].
  - destruct (strings.HasPrefix (String c s) sep); [discriminate|].
    destruct (strings.Cut s sep) as [[b a] f]. intros [= <- <- ->].
    destruct (IH b a eq_refl) as [-> ->]. now split.
Qed.

(** A separator that occurs is found. *)
Lemma Cut_occurs (sep : string) : forall g r,
  (strings.Cut (g ++ sep ++ r) sep).2 = true.
Proof.
  induction g as [|c g IH]; intros r.
  - rewrite append_nil_l.
    destruct (sep ++ r) as [|d t] eqn:E; cbn [strings.Cut];
      rewrite <- E, HasPrefix_append; reflexivity.
  - rewrite append_cons. cbn [strings.Cut].
    destruct (strings.HasPrefix (String c (g ++ sep ++ r)) sep); [reflexivity|].
    specialize (IH r). destruct (strings.Cut (g ++ sep ++ r) sep) as [[b a] f].
    exact IH.
Qed.

(** What is before the first equals sign holds no equals sign. *)
Lemma Cut_equals_before : forall s before after found,
  strings.Cut s "=" = (before, after, found) ->
  all_chars (fun c => negb (Ascii.eqb c "=")) before = true.
Proof.
  induction s as [|c s IH]; intros before after found; cbn [strings.Cut].
  - simpl. now intros [= <- <- <-].
  - cbn [strings.HasPrefix]. destruct (Ascii.eqb c "=") eqn:E.
    + now intros [= <- <- <-].
    + destruct (strings.Cut s "=") as [[b a] f]. intros [= <- <- <-].
      simpl. rewrite E. simpl. now apply (IH b a f).
Qed.

End cut_facts.

(** ** The name of a parameter value *)

Section names.
Context {T : Type} `{ZeroT : !Zero T} `{Fd : !strdist.Finder}.
Implicit Types (s : MultiSetterBase T).

(** A name that passes the name check. *)
Lemma checkParamPartName_None s (name : string) :
  checkParamPartName s name = None ->
  name <> "" /\ (size (AVals s) = 0%nat \/ is_Some (AVals s !! name)).
Proof.
  unfold checkParamPartName, psetter.ValueAllowed.
  case_decide as Hn; [discriminate|].
  destruct (0 <? size (AVals s))%nat eqn:Hsz.
  - case_bool_decide as Hin; simpl; [auto | discriminate].
  - apply Nat.ltb_ge in Hsz. intros _. split; [exact Hn | left; lia].
Qed.

(** X1: the name check passes exactly for the names that are not empty
    and, when the allow-list has entries, are keys of it. *)
Theorem checkParamPartName_passes s (name : string) :
  checkParamPartName s name = None <->
  name <> "" /\ (size (AVals s) = 0%nat \/ is_Some (AVals s !! name)).
Proof.
  split; [apply checkParamPartName_None|].
  intros [Hn Hallow]. unfold checkParamPartName, psetter.ValueAllowed.
  rewrite decide_False by exact Hn.
  destruct (0 <? size (AVals s))%nat eqn:Hsz; [|reflexivity].
  apply Nat.ltb_lt in Hsz.
  destruct Hallow as [H0|Hin]; [lia|].
  now rewrite bool_decide_eq_true_2.
Qed.

(** X2: a name the check refuses: the empty name gives the error of the
    empty name; any other is not a key of the allow-list, which has
    entries, and the error holds the name and the alternatives the finder
    picks, three at most and all keys of the allow-list when the finder
    keeps its contract. *)
Theorem checkParamPartName_refuses s (name : string) (e : error) :
  checkParamPartName s name = Some e ->
  (name = "" /\ e = ErrNameEmpty) \/
  (name <> "" /\ AVals s !! name = None /\ (0 < size (AVals s))%nat /\
   exists alts,
     e = ErrBadName name alts /\
     alts = strdist.FindNStrLike 3 name (maps_Keys (AVals s)) /\
     (strdist.Finder_contract Fd ->
      (List.length alts <= 3)%nat /\
      forall a, a ∈ alts -> is_Some (AVals s !! a))).
Proof.
  unfold checkParamPartName, psetter.ValueAllowed.
  case_decide as Hn; [intros [= <-]; now left|].
  destruct (0 <? size (AVals s))%nat eqn:Hsz; [|discriminate].
  apply Nat.ltb_lt in Hsz.
  case_bool_decide as Hin; simpl; [discriminate|].
  intros [= <-]. right. split; [exact Hn|]. split.
  { destruct (AVals s !! name) eqn:E; [|reflexivity]. exfalso. eauto. }
  split; [exact Hsz|]. eexists. split; [reflexivity|]. split; [reflexivity|].
  intros Hc. destruct (Hc 3%nat name (maps_Keys (AVals s))) as [Hlen Hsub].
  split; [exact Hlen|]. intros a Ha. now apply elem_of_maps_Keys, Hsub.
Qed.

(** The name of a named value returned without an error has passed the
    check against the allow-list. *)
Lemma accepted_name_allowed s (paramVal : string) s' (nv : NamedValue.t T) :
  GetNamedValue s paramVal = (s', nv, None) ->
  size (AVals s) = 0%nat \/ is_Some (AVals s !! NamedValue.Name nv).
Proof.
  unfold GetNamedValue.
  destruct (strings.Cut paramVal "=") as [[name val] ok].
  destruct (checkParamPartName s name) eqn:Hname; [discriminate|].
  apply checkParamPartName_None in Hname as [_ Hallow].
  destruct ok; simpl.
  - case_decide; [discriminate|].
    destruct (setWithSubvals _ _ _ _ _) as [[[s1 d1] v1] [e1|]]; [discriminate|].
    destruct (mustBeSetMissing s1 d1); [discriminate|].
    case_decide; [discriminate|]. now intros [= <- <-].
  - now intros [= <- <-].
Qed.

(** X3: the name of a named value returned without an error is the text
    before the first equals sign of the parameter value (the whole value
    when it has none): it is not empty, holds no equals sign, and is a
    key of the allow-list when the allow-list has entries. *)
Theorem accepted_name s (paramVal : string) s' (nv : NamedValue.t T) :
  GetNamedValue s paramVal = (s', nv, None) ->
  NamedValue.Name nv <> "" /\
  all_chars (fun c => negb (Ascii.eqb c "=")) (NamedValue.Name nv) = true /\
  (size (AVals s) = 0%nat \/ is_Some (AVals s !! NamedValue.Name nv)) /\
  (paramVal = NamedValue.Name nv \/
   exists val, paramVal = NamedValue.Name nv ++ "=" ++ val).
Proof.
  unfold GetNamedValue.
  destruct (strings.Cut paramVal "=") as [[name val] ok] eqn:Hcut.
  destruct (checkParamPartName s name) eqn:Hname; [discriminate|].
  apply checkParamPartName_None in Hname as [Hne Hallow].
  pose proof (Cut_equals_before _ _ _ _ Hcut) as Hnoeq.
  assert (Hshape : paramVal = name \/ exists val, paramVal = name ++ "=" ++ val).
  { destruct ok.
    - right. exists val. now apply Cut_found.
    - left. now apply Cut_not_found in Hcut as [-> _]. }
  assert (Hgoal : forall nv0 : NamedValue.t T, NamedValue.Name nv0 = name ->
    NamedValue.Name nv0 <> "" /\
    all_chars (fun c => negb (Ascii.eqb c "=")) (NamedValue.Name nv0) = true /\
    (size (AVals s) = 0%nat \/ is_Some (AVals s !! NamedValue.Name nv0)) /\
    (paramVal = NamedValue.Name nv0 \/
     exists val, paramVal = NamedValue.Name nv0 ++ "=" ++ val))
    by (intros nv0 ->; auto).
  destruct ok; simpl.
  - case_decide; [discriminate|].
    destruct (setWithSubvals _ _ _ _ _) as [[[s1 d1] v1] [e1|]]; [discriminate|].
    destruct (mustBeSetMissing s1 d1); [discriminate|].
    case_decide; [discriminate|]. intros [= <- <-]. now apply Hgoal.
  - intros [= <- <-]. now apply Hgoal.
Qed.

End names.

(** ** What the matcher finds *)

Section matcher_sound.

Lemma span_in_class p : forall s a b,
  re.span p s = (a, b) -> all_chars p a = true.
Proof.
  induction s as [|c s IH]; simpl; intros a b H.
  - now inversion H.
  - destruct (p c) eqn:Hc.
    + destruct (re.span p s) as [a' b'] eqn:E. inversion H; subst.
      simpl. rewrite Hc. simpl. now apply (IH a' b).
    + now inversion H.
Qed.

Lemma match_key_grammar s key rest :
  re.match_key s = Some (key, rest) -> identifier_grammar key = true.
Proof.
  unfold re.match_key. destruct s as [|c s]; [discriminate|].
  destruct (re.is_key_start c) eqn:Hc; [|discriminate].
  destruct (re.span re.is_key_char s) as [k r] eqn:E.
  intros [= <- <-]. simpl. rewrite Hc. simpl. now apply span_in_class in E.
Qed.

(** A match at the front of a text is the text of a well-formed
    assignment with the key and the value of the match. *)
Lemma match_subValue_sound s m :
  re.match_subValue s = Some m ->
  exists a, well_formed a = true /\
            re.m_whole m = render a /\
            a_key a = re.m_key m /\ a_val a = re.m_val m.
Proof.
  unfold re.match_subValue.
  destruct (re.span re.is_space s) as [ws1 s1] eqn:E1.
  destruct (re.match_key s1) as [[key s2]|] eqn:Ek; [|discriminate].
  destruct (re.span re.is_space s2) as [ws2 s3] eqn:E2.
  destruct (re.expect "=" s3) as [s4|]; [|discriminate].
  destruct (re.span re.is_space s4) as [ws3 s5] eqn:E3.
  destruct (re.expect re.dquote s5) as [s6|]; [|discriminate].
  destruct (re.span re.not_quote s6) as [val s7] eqn:E4.
  destruct (re.expect re.dquote s7) as [s8|]; [|discriminate].
  destruct (re.span re.is_space s8) as [ws4 rest] eqn:E5.
  intros [= <-]. exists (Assignment ws1 key ws2 ws3 val ws4).
  apply span_in_class in E1, E2, E3, E4, E5.
  apply match_key_grammar in Ek.
  unfold well_formed, render. simpl.
  rewrite E1, E2, E3, E4, E5, Ek. repeat split.
Qed.

Lemma find_subValue_sound : forall s m,
  re.find_subValue s = Some m ->
  exists a, well_formed a = true /\
            re.m_whole m = render a /\
            a_key a = re.m_key m /\ a_val a = re.m_val m.
Proof.
  induction s as [|c s IH]; intros m.
  - vm_compute. discriminate.
  - cbn [re.find_subValue].
    destruct (re.match_subValue (String c s)) as [m'|] eqn:E.
    + intros [= <-]. now apply match_subValue_sound in E.
    + apply IH.
Qed.

(** The matches found with any amount of fuel are texts of well-formed
    assignments. *)
Lemma FindAll_fuel_sound (n : nat) : forall (s : string) (sVal : list string),
  sVal ∈ re.FindAll_fuel n s ->
  exists a, well_formed a = true /\ sVal = [render a; a_key a; a_val a].
Proof.
  induction n as [|n IH]; intros s sVal; simpl.
  - intros H. inversion H.
  - destruct (re.find_subValue s) as [m|] eqn:E; [|intros H; inversion H].
    intros H. apply elem_of_cons in H as [-> | H]; [|eauto].
    apply find_subValue_sound in E as (a & Hw & -> & <- & <-). eauto.
Qed.

(** X4: every match of the assignment pattern in any text is made of the
    text of a well-formed assignment, its key and its value: the key is of
    the identifier grammar, the value holds no double quote, and around
    them there is only white space, the equals sign and the two quotes. *)
Theorem FindAll_sound (s : string) (sVal : list string) :
  sVal ∈ re.subValueRE_FindAllStringSubmatch s ->
  exists a, well_formed a = true /\
            identifier_grammar (a_key a) = true /\
            all_chars re.not_quote (a_val a) = true /\
            sVal = [render a; a_key a; a_val a].
Proof.
  unfold re.subValueRE_FindAllStringSubmatch. intros H.
  apply FindAll_fuel_sound in H as (a & Hwa & ->).
  exists a. split; [exact Hwa|].
  unfold well_formed in Hwa. rewrite !andb_true_iff in Hwa.
  destruct Hwa as [[[[[_ Hg] _] _] Hv] _]. auto.
Qed.

(** The matches of the text of a well-formed field list, read from a
    first assignment on. *)
Lemma FindAll_rendered (l : list assignment) : forall a,
  well_formed a = true ->
  Forall (fun b => well_formed b = true) l ->
  (fun t => (key_of t, val_of t))
    <$> re.subValueRE_FindAllStringSubmatch (render_all (a :: l))
  = (fun b => (a_key b, a_val b)) <$> (a :: l) /\
  concat_all (whole_of <$> re.subValueRE_FindAllStringSubmatch (render_all (a :: l)))
  = render_all (a :: l).
Proof.
  induction l as [|a' l IH]; intros a Hwa Hwl.
  - cbn [render_all]. rewrite append_nil_r.
    pose proof (match_subValue_render a "" Hwa) as Hm.
    rewrite append_nil_r in Hm. simpl in Hm. rewrite append_nil_r in Hm.
    rewrite FindAll_unfold, (find_subValue_match _ _ Hm).
    cbn [re.m_whole re.m_key re.m_val re.m_rest].
    change (re.subValueRE_FindAllStringSubmatch "") with (@nil (list string)).
    split; [reflexivity|]. cbn. now rewrite append_nil_r.
  - apply Forall_cons in Hwl as [Hwa' Hwl].
    cbn [render_all].
    pose proof (match_subValue_render a (render a' ++ render_all l) Hwa) as Hm.
    rewrite (span_render a' _ Hwa') in Hm. simpl in Hm.
    rewrite FindAll_unfold, (find_subValue_match _ _ Hm).
    cbn [re.m_whole re.m_key re.m_val re.m_rest].
    destruct (IH (lstrip a') (well_formed_lstrip _ Hwa') Hwl) as [Hkv Hcat].
    cbn [render_all] in Hkv, Hcat.
    rewrite !fmap_cons. split.
    + rewrite Hkv. reflexivity.
    + cbn [concat_all fold_right]. fold (concat_all
        (whole_of <$> re.subValueRE_FindAllStringSubmatch
           (render (lstrip a') ++ render_all l))).
      rewrite Hcat. unfold whole_of. cbn [nth wholeValIdx].
      rewrite (render_lstrip a'). now rewrite !append_assoc.
Qed.

(** X5: the matches of the text of a well-formed field list are its
    assignments: their keys and values are those of the assignments, in
    order, and their texts, one after the other, are the whole text. *)
Theorem FindAll_of_rendered (l : list assignment) :
  Forall (fun b => well_formed b = true) l ->
  (fun t => (key_of t, val_of t))
    <$> re.subValueRE_FindAllStringSubmatch (render_all l)
  = (fun b => (a_key b, a_val b)) <$> l /\
  concat_all (whole_of <$> re.subValueRE_FindAllStringSubmatch (render_all l))
  = render_all l.
Proof.
  destruct l as [|a l]; intros Hwf.
  - split; reflexivity.
  - apply Forall_cons in Hwf as [Hwa Hwl]. now apply FindAll_rendered.
Qed.

End matcher_sound.

(** ** Parameter values that are accepted *)

Section accepted.
Context {T : Type} `{ZeroT : !Zero T} `{Fd : !strdist.Finder}.
Implicit Types (s : MultiSetterBase T) (dups : gmap string string).

Lemma concat_all_cons (x : string) (l : list string) :
  concat_all (x :: l) = x ++ concat_all l.
Proof. reflexivity. Qed.

(** What the loop over the matches has checked when it ends without an
    error. *)
Lemma setWithSubvals_accepts toks : forall s val i dups s' dups' val',
  setWithSubvals s val i toks dups = (s', dups', val', None) ->
  val = concat_all (whole_of <$> toks) ++ val' /\
  Forall (fun t => is_Some (EntryValSetterMap s !! canonical s (key_of t))) toks /\
  NoDup ((fun t => canonical s (key_of t)) <$> toks) /\
  (forall t, t ∈ toks -> dups !! canonical s (key_of t) = None) /\
  (forall k, is_Some (dups' !! k) <->
             is_Some (dups !! k) \/ k ∈ (fun t => canonical s (key_of t)) <$> toks).
Proof.
  induction toks as [|sVal toks IH]; intros s val i dups s' dups' val' H;
    cbn [setWithSubvals] in H.
  - simplify_eq. rewrite fmap_nil. repeat split; try constructor.
    + intros t Ht. inversion Ht.
    + auto.
    + intros [Hk|Hk]; [exact Hk | inversion Hk].
  - destruct (setWithSubval s val i sVal dups) as [[[s1 d1] v1] [e1|]] eqn:E;
      [discriminate|].
    pose proof (setWithSubval_receiver _ _ _ _ _ _ _ _ _ E) as [ev ->].
    apply setWithSubval_applied in E
      as (w & rk & v & evs & -> & Hpre & -> & Hget & Hnone & ->).
    apply getSetter_inl in Hget as [_ Hevs].
    apply IH in H as (Hval & Hres & Hnd & Hfresh & Hdom).
    change (key_of [w; rk; v]) with rk. change (whole_of [w; rk; v]) with w.
    assert (Hnotin : canonical s rk ∉ (fun t => canonical s (key_of t)) <$> toks).
    { intros Hin. apply list_elem_of_fmap in Hin as (t & Heq & Ht).
      specialize (Hfresh t Ht). rewrite canonical_set_EntryVal, <- Heq in Hfresh.
      rewrite lookup_insert_eq in Hfresh. discriminate. }
    split; [|split; [|split; [|split]]].
    + rewrite fmap_cons, concat_all_cons, append_assoc, <- Hval.
      now apply HasPrefix_split.
    + constructor; [eauto | exact Hres].
    + rewrite fmap_cons. apply NoDup_cons. split; assumption.
    + intros t Ht. apply elem_of_cons in Ht as [-> | Ht]; [exact Hnone|].
      specialize (Hfresh t Ht). rewrite canonical_set_EntryVal in Hfresh.
      apply lookup_insert_None in Hfresh as [Hf _]. exact Hf.
    + intros k. rewrite Hdom, fmap_cons, elem_of_cons.
      destruct (decide (canonical s rk = k)) as [<-|Hne].
      * rewrite lookup_insert_eq. split; [auto | eauto].
      * rewrite lookup_insert_ne by exact Hne. split.
        -- intros [Hk|Hk]; [left; exact Hk | right; right; exact Hk].
        -- intros [Hk|[Hk|Hk]]; [left; exact Hk | | right; exact Hk].
           exfalso. apply Hne. symmetry. exact Hk.
Qed.

(** A value with a field list that is accepted went through the loop and
    the two checks after it. *)
Lemma GetNamedValue_accepts s paramVal name val s' (nv : NamedValue.t T) :
  strings.Cut paramVal "=" = (name, val, true) ->
  GetNamedValue s paramVal = (s', nv, None) ->
  re.subValueRE_FindAllStringSubmatch val <> [] /\
  exists dups,
    setWithSubvals (set_EntryVal s (DfltEntryVal s)) val 0
      (re.subValueRE_FindAllStringSubmatch val) ∅ = (s', dups, "", None) /\
    mustBeSetMissing s' dups = None /\
    nv = {| NamedValue.Name := name; NamedValue.Value := EntryVal s' |}.
Proof.
  intros Hcut. unfold GetNamedValue. rewrite Hcut.
  destruct (checkParamPartName s name); [discriminate|]. simpl.
  case_decide as Hlen; [discriminate|].
  destruct (setWithSubvals _ _ _ _ _) as [[[s1 d1] v1] [e1|]] eqn:E; [discriminate|].
  destruct (mustBeSetMissing s1 d1) eqn:Hm; [discriminate|].
  case_decide as Hv; [discriminate|]. intros [= <- <-].
  assert (v1 = "") as -> by (destruct (decide (v1 = "")); [assumption | contradiction]).
  split; [intros Hnil; rewrite Hnil in Hlen; now apply Hlen|].
  exists d1. auto.
Qed.

Lemma sound_matches_are_assignments (toks : list (list string)) :
  (forall t, t ∈ toks ->
     exists a, well_formed a = true /\ t = [render a; a_key a; a_val a]) ->
  exists l, Forall (fun a => well_formed a = true) l /\
            toks = (fun a => [render a; a_key a; a_val a]) <$> l /\
            concat_all (whole_of <$> toks) = render_all l.
Proof.
  induction toks as [|t toks IH]; intros H.
  - exists []. repeat split; constructor.
  - destruct (H t (list_elem_of_here _ _)) as (a & Hw & ->).
    destruct IH as (l & Hwl & -> & Hcat).
    { intros t' Ht'. apply H. now apply list_elem_of_further. }
    exists (a :: l). split; [now constructor|]. split; [reflexivity|].
    rewrite fmap_cons, concat_all_cons, Hcat. reflexivity.
Qed.

(** X6: the field list of a parameter value that is accepted is the text
    of one well-formed assignment or more, and nothing else: no text
    before, between or after the assignments; the matches the setter
    works on are these assignments. *)
Theorem accepted_field_list s (paramVal name val : string) s' (nv : NamedValue.t T) :
  strings.Cut paramVal "=" = (name, val, true) ->
  GetNamedValue s paramVal = (s', nv, None) ->
  exists l : list assignment,
    l <> [] /\ Forall (fun a => well_formed a = true) l /\
    val = render_all l /\
    re.subValueRE_FindAllStringSubmatch val
    = (fun a => [render a; a_key a; a_val a]) <$> l.
Proof.
  intros Hcut Hok.
  destruct (GetNamedValue_accepts _ _ _ _ _ _ Hcut Hok) as (Hne & dups & Hloop & _ & _).
  apply setWithSubvals_accepts in Hloop as (Hval & _).
  rewrite append_nil_r in Hval.
  destruct (sound_matches_are_assignments (re.subValueRE_FindAllStringSubmatch val))
    as (l & Hwf & Htoks & Hcat); [intros t; apply FindAll_fuel_sound|].
  exists l. split; [|split; [exact Hwf|split; [congruence | exact Htoks]]].
  intros ->. now rewrite Htoks in Hne.
Qed.

(** X7: in a parameter value that is accepted every key resolves to a
    key of the setter map, and no two assignments resolve to the same
    key: no field is set twice, by its key or by its aliases. *)
Theorem accepted_keys s (paramVal name val : string) s' (nv : NamedValue.t T) :
  strings.Cut paramVal "=" = (name, val, true) ->
  GetNamedValue s paramVal = (s', nv, None) ->
  let toks := re.subValueRE_FindAllStringSubmatch val in
  Forall (fun t => is_Some (EntryValSetterMap s !! canonical s (key_of t))) toks /\
  NoDup ((fun t => canonical s (key_of t)) <$> toks).
Proof.
  intros Hcut Hok.
  destruct (GetNamedValue_accepts _ _ _ _ _ _ Hcut Hok) as (_ & dups & Hloop & _ & _).
  apply setWithSubvals_accepts in Hloop as (_ & Hres & Hnd & _). now split.
Qed.

(** X8: in a parameter value with a field list that is accepted every
    field marked [MustBeSet] is assigned: an assignment resolves to its
    key. *)
Theorem accepted_mandatory s (paramVal name val : string) s' (nv : NamedValue.t T)
    (k : string) (evs : EntryValSetter T) :
  strings.Cut paramVal "=" = (name, val, true) ->
  GetNamedValue s paramVal = (s', nv, None) ->
  EntryValSetterMap s !! k = Some evs ->
  MustBeSet evs = true ->
  exists t, t ∈ re.subValueRE_FindAllStringSubmatch val /\
            canonical s (key_of t) = k.
Proof.
  intros Hcut Hok Hk Hm.
  destruct (GetNamedValue_accepts _ _ _ _ _ _ Hcut Hok)
    as (_ & dups & Hloop & Hmust & _).
  pose proof (setWithSubvals_receiver _ _ _ _ _ _ _ _ _ Hloop) as [ev ->].
  apply setWithSubvals_accepts in Hloop as (_ & _ & _ & _ & Hdom).
  assert (Hset : is_Some (dups !! k)).
  { destruct (dups !! k) eqn:Hd; [eauto|]. exfalso.
    destruct (mustBeSetMissing_is_Some
                (set_EntryVal (set_EntryVal s (DfltEntryVal s)) ev) dups k evs Hk Hm Hd)
      as [x Hx]. congruence. }
  apply Hdom in Hset as [[x Hx]|Hin]; [rewrite lookup_empty in Hx; discriminate|].
  apply list_elem_of_fmap in Hin as (t & -> & Ht). eauto.
Qed.

(** X9: the value of a named value returned without an error for a
    parameter value with a field list is the entry value the receiver
    holds after the call; for a name only it is the default, and the
    receiver is left as it was. *)
Theorem accepted_value s (paramVal name val : string) (ok : bool) s'
    (nv : NamedValue.t T) :
  strings.Cut paramVal "=" = (name, val, ok) ->
  GetNamedValue s paramVal = (s', nv, None) ->
  NamedValue.Name nv = name /\
  (if ok then NamedValue.Value nv = EntryVal s'
   else NamedValue.Value nv = DfltEntryVal s /\ s' = s).
Proof.
  intros Hcut Hok. destruct ok.
  - destruct (GetNamedValue_accepts _ _ _ _ _ _ Hcut Hok) as (_ & d & _ & _ & ->).
    now split.
  - revert Hok. unfold GetNamedValue. rewrite Hcut.
    destruct (checkParamPartName s name); [discriminate|]. simpl.
    intros [= <- <-]. auto.
Qed.

End accepted.

(** ** Text before an entry *)

Section text_before.
Context {T : Type} `{ZeroT : !Zero T} `{Fd : !strdist.Finder}.
Implicit Types (dups : gmap string string).

Lemma find_subValue_occurs : forall s m,
  re.find_subValue s = Some m ->
  exists g, s = g ++ re.m_whole m ++ re.m_rest m.
Proof.
  induction s as [|c s IH]; intros m.
  - vm_compute. discriminate.
  - cbn [re.find_subValue].
    destruct (re.match_subValue (String c s)) as [m'|] eqn:E.
    + intros [= <-]. exists "". now apply match_subValue_whole in E.
    + intros H. destruct (IH m H) as [g Hg]. exists (String c g).
      rewrite append_cons. now f_equal.
Qed.

Lemma append_inv_head (a : string) : forall b c, a ++ b = a ++ c -> b = c.
Proof.
  induction a as [|x a IH]; intros b c H; [exact H|].
  rewrite !append_cons in H. injection H as H. now apply IH.
Qed.

(** A leftmost match whose text the value starts with is a match at the
    front: what follows it is the value without that text. *)
Lemma find_subValue_front s m :
  re.find_subValue s = Some m ->
  strings.HasPrefix s (re.m_whole m) = true ->
  re.m_rest m = strings.TrimPrefix s (re.m_whole m).
Proof.
  intros Hfind Hpre.
  destruct (find_subValue_sound _ _ Hfind) as (a & Hwa & Hwhole & _ & _).
  pose proof (HasPrefix_split _ _ Hpre) as Hs.
  generalize dependent (strings.TrimPrefix s (re.m_whole m)). intros t Hs.
  rewrite Hwhole in Hs.
  pose proof (match_subValue_render a t Hwa) as Hm.
  rewrite <- Hs in Hm. apply find_subValue_match in Hm.
  rewrite Hfind in Hm. injection Hm as ->. cbn [re.m_whole re.m_rest] in *.
  destruct (re.span re.is_space t) as [sp r] eqn:E. cbn [fst snd] in *.
  apply span_append in E.
  rewrite <- (append_nil_r (render a)) in Hwhole at 2.
  apply append_inv_head in Hwhole. subst sp. now rewrite append_nil_l in E.
Qed.

(** The matches still to come are the matches of the text still to be
    read. *)
Lemma setWithSubvals_rest pre :
  forall (s : MultiSetterBase T) val i dups post s' dups' val',
  re.subValueRE_FindAllStringSubmatch val = (pre ++ post)%list ->
  setWithSubvals s val i pre dups = (s', dups', val', None) ->
  re.subValueRE_FindAllStringSubmatch val' = post.
Proof.
  induction pre as [|sVal pre IH]; intros s val i dups post s' dups' val' Hall H;
    cbn [setWithSubvals] in H.
  - simplify_eq. exact Hall.
  - destruct (setWithSubval s val i sVal dups) as [[[s1 d1] v1] [e1|]] eqn:E;
      [discriminate|].
    apply setWithSubval_applied in E
      as (w & rk & v & evs & -> & Hpre & -> & _ & _ & ->).
    apply (IH _ _ _ _ post _ _ _) in H; [exact H|].
    rewrite FindAll_unfold in Hall.
    destruct (re.find_subValue val) as [m|] eqn:Hfind; [|discriminate].
    injection Hall as <- _ _ Hrest.
    now rewrite <- (find_subValue_front _ _ Hfind Hpre).
Qed.

(** X10: when the entries before an entry are applied and the text still
    to be read does not start with the text of the entry, the error is
    that of unexpected text before the entry: it holds text that is not
    empty and that stands in the value between the entries applied and
    the entry, the position of the entry counted from one, and the text
    of the entry. *)
Theorem text_before_an_entry (s : MultiSetterBase T) (paramVal name val : string)
    (pre post : list (list string)) (w k v : string) σ dups (val' : string) :
  strings.Cut paramVal "=" = (name, val, true) ->
  checkParamPartName s name = None ->
  re.subValueRE_FindAllStringSubmatch val = (pre ++ [w; k; v] :: post)%list ->
  setWithSubvals (set_EntryVal s (DfltEntryVal s)) val 0 pre ∅
  = (σ, dups, val', None) ->
  strings.HasPrefix val' w = false ->
  exists badVal after,
    badVal <> "" /\
    val = concat_all (whole_of <$> pre) ++ badVal ++ w ++ after /\
    GetNamedValue s paramVal
    = (σ, zero, Some (ErrTextBefore badVal (List.length pre + 1) w)).
Proof.
  intros Hcut Hname Hall Hpre Hfront.
  pose proof (setWithSubvals_rest _ _ _ _ _ _ _ _ _ Hall Hpre) as Hrest.
  pose proof (setWithSubvals_accepts _ _ _ _ _ _ _ _ Hpre) as (Hval & _).
  rewrite FindAll_unfold in Hrest.
  destruct (re.find_subValue val') as [m|] eqn:Hfind; [|discriminate].
  injection Hrest as Hw _ _ _.
  destruct (find_subValue_occurs _ _ Hfind) as [g Hg]. rewrite Hw in Hg.
  pose proof (Cut_occurs w g (re.m_rest m)) as Hocc. rewrite <- Hg in Hocc.
  destruct (strings.Cut val' w) as [[badVal after] found] eqn:Hc.
  simpl in Hocc. subst found.
  pose proof (Cut_found _ _ _ _ Hc) as Hsplit.
  exists badVal, after. split; [|split].
  - intros ->. rewrite append_nil_l in Hsplit.
    rewrite Hsplit, HasPrefix_append in Hfront. discriminate.
  - now rewrite Hval, Hsplit.
  - rewrite (GetNamedValue_fields _ _ _ _ Hcut Hname). cbv zeta.
    rewrite Hall, setWithSubvals_app, Hpre. cbn [setWithSubvals].
    unfold setWithSubval.
    cbn [List.length Nat.eqb expectedRegexpSubmatchLength
      negb nth wholeValIdx keyIdx valIdx].
    rewrite Hfront, Hc. simpl. now destruct pre.
Qed.

End text_before.

(** ** The configuration checks *)

Section configuration.
Context {T : Type} `{ZeroT : !Zero T} `{Fd : !strdist.Finder}
  `{AVC : !psetter.AllowedValsCheck}.
Implicit Types (s : MultiSetterBase T).

Lemma range_panic_passes {A} (body : A -> option panic) (l : list A) :
  range_panic body l = None <-> Forall (fun x => body x = None) l.
Proof.
  induction l as [|x l IH]; simpl.
  - split; [constructor | reflexivity].
  - destruct (body x) eqn:E.
    + split; [discriminate|]. intros H. apply Forall_cons in H as [H _]. congruence.
    + rewrite IH. split; [intros H; now constructor|].
      intros H. now apply Forall_cons in H as [_ H].
Qed.

Lemma and_then_passes (a b : option panic) :
  and_then a b = None <-> a = None /\ b = None.
Proof. destruct a; simpl; [split; [discriminate | now intros [? _]] | tauto]. Qed.

(** X11: [checkEntryValSetters] returns without a panic exactly when the
    setter map has an entry and, for every entry, the key holds a match of
    the key expression, the setter does not refuse a value, and the check
    of the setter itself passes. *)
Theorem checkEntryValSetters_passes s :
  checkEntryValSetters s = None <->
  EntryValSetterMap s <> ∅ /\
  forall k evs,
    EntryValSetterMap s !! k = Some evs ->
    re.evsKeyRE_MatchString k = true /\
    param.ValueReq_of (Setter evs) <> param.None /\
    param.CheckSetter (Setter evs) k = true.
Proof.
  unfold checkEntryValSetters. case_decide as Hsz.
  - apply map_size_empty_iff in Hsz. split; [discriminate | tauto].
  - rewrite range_panic_passes, Forall_forall.
    assert (Hne : EntryValSetterMap s <> ∅)
      by (intros He; apply Hsz; now rewrite He, map_size_empty).
    assert (Hbody : forall k (evs : EntryValSetter T),
      checkEntryValSetter (k, evs) = None <->
      re.evsKeyRE_MatchString k = true /\
      param.ValueReq_of (Setter evs) <> param.None /\
      param.CheckSetter (Setter evs) k = true).
    { intros k evs. unfold checkEntryValSetter.
      destruct (re.evsKeyRE_MatchString k); simpl;
        [|split; [discriminate | now intros [? _]]].
      destruct (param.ValueReq_of (Setter evs));
        destruct (param.CheckSetter (Setter evs) k);
        (split; [try discriminate; intros _; repeat split; congruence
                | intros (_ & ? & ?); congruence]). }
    split.
    + intros H. split; [exact Hne|]. intros k evs Hk.
      apply Hbody, (H (k, evs)). now apply elem_of_map_to_list.
    + intros [_ H] [k evs] Hin. apply Hbody, H.
      now apply elem_of_map_to_list in Hin.
Qed.

Lemma alias_body_passes s (k v : string) :
  match EntryValSetterMap s !! k with
  | Some _ => Some (PanicAliasIsSubval k)
  | None => match EntryValSetterMap s !! v with
            | Some _ => None
            | None => Some (PanicAliasTarget k v)
            end
  end = None <->
  EntryValSetterMap s !! k = None /\ is_Some (EntryValSetterMap s !! v).
Proof.
  destruct (EntryValSetterMap s !! k); [split; [discriminate | now intros [? _]]|].
  destruct (EntryValSetterMap s !! v).
  - split; [eauto | reflexivity].
  - split; [discriminate|]. intros [_ [x Hx]]. discriminate.
Qed.

(** The aliases of a setter that passes the check of the aliases. *)
Lemma checked_aliases s (k v : string) :
  checkEntryValSetterMapAliases s = None ->
  EntryValSMAliases s !! k = Some v ->
  EntryValSetterMap s !! k = None /\ is_Some (EntryValSetterMap s !! v).
Proof.
  unfold checkEntryValSetterMapAliases.
  rewrite range_panic_passes, Forall_forall. intros H Hk.
  apply alias_body_passes, (H (k, v)). now apply elem_of_map_to_list.
Qed.

(** X12: [checkEntryValSetterMapAliases] returns without a panic exactly
    when no alias is a key of the setter map and the target of every
    alias is one. *)
Theorem checkEntryValSetterMapAliases_passes s :
  checkEntryValSetterMapAliases s = None <->
  forall k v,
    EntryValSMAliases s !! k = Some v ->
    EntryValSetterMap s !! k = None /\ is_Some (EntryValSetterMap s !! v).
Proof.
  split; [intros H k v; now apply checked_aliases|].
  intros H. unfold checkEntryValSetterMapAliases.
  rewrite range_panic_passes, Forall_forall.
  intros [k v] Hin. apply alias_body_passes, H.
  now apply elem_of_map_to_list in Hin.
Qed.

(** X13: on a setter that passes [CheckMultiSetter] every alias resolves,
    at any position, to its target and the setter of its target, and
    every key of the setter map to itself. *)
Theorem checked_keys_resolve s :
  CheckMultiSetter s = None ->
  (forall alias k,
     EntryValSMAliases s !! alias = Some k ->
     exists evs, EntryValSetterMap s !! k = Some evs /\
                 forall i, getSetter s i alias = inl (k, evs)) /\
  (forall k evs,
     EntryValSetterMap s !! k = Some evs ->
     forall i, getSetter s i k = inl (k, evs)).
Proof.
  unfold CheckMultiSetter. rewrite !and_then_passes.
  intros (_ & _ & Hal). split.
  - intros alias k Ha.
    destruct (checked_aliases s _ _ Hal Ha) as [Hnk [evs Hk]].
    exists evs. split; [exact Hk|]. intros i.
    unfold getSetter. now rewrite Hnk, Ha, Hk.
  - intros k evs Hk i. unfold getSetter. now rewrite Hk.
Qed.

(** The keys of the container of a map setter are allowed. *)
Lemma Map_checkValue_passes (m : MapMultiSetter.t T) :
  MapMultiSetter.checkValue m = None <->
  size (AVals (MapMultiSetter.Base m)) = 0%nat \/
  MapMultiSetter.AllowHiddenMapEntries m = true \/
  forall k, is_Some (MapMultiSetter.Value m !! k) ->
            is_Some (AVals (MapMultiSetter.Base m) !! k).
Proof.
  unfold MapMultiSetter.checkValue. case_decide as Hsz; [tauto|].
  destruct (MapMultiSetter.AllowHiddenMapEntries m); [tauto|].
  rewrite range_panic_passes, Forall_forall. unfold psetter.ValueAllowed. split.
  - intros H. right. right. intros k Hk. apply elem_of_maps_Keys in Hk.
    specialize (H k Hk). simpl in H. case_bool_decide; [assumption | discriminate].
  - intros [H|[H|H]]; [contradiction | discriminate |].
    intros k Hk. apply elem_of_maps_Keys, H in Hk.
    now rewrite bool_decide_eq_true_2.
Qed.

Lemma List_checkValue_passes (l : ListMultiSetter.t T) :
  ListMultiSetter.checkValue l = None <->
  size (AVals (ListMultiSetter.Base l)) = 0%nat \/
  ListMultiSetter.AllowInvalidListEntries l = true \/
  Forall (fun nv => is_Some (AVals (ListMultiSetter.Base l) !! NamedValue.Name nv))
    (ListMultiSetter.Value l).
Proof.
  unfold ListMultiSetter.checkValue. case_decide as Hsz; [tauto|].
  destruct (ListMultiSetter.AllowInvalidListEntries l); [tauto|].
  rewrite range_panic_passes, !Forall_forall. unfold psetter.ValueAllowed. split.
  - intros H. right. right. intros nv Hnv.
    specialize (H nv Hnv). simpl in H. case_bool_decide; [assumption | discriminate].
  - intros [H|[H|H]]; [contradiction | discriminate |].
    intros nv Hnv. now rewrite bool_decide_eq_true_2 by auto.
Qed.

Lemma CheckMultiSetter_set_EntryVal s ev :
  CheckMultiSetter (set_EntryVal s ev) = CheckMultiSetter s.
Proof. reflexivity. Qed.

(** X14: a map setter that passes [CheckSetter] passes it again after any
    call of [SetWithVal], failed or not: the configuration is not
    changed, and a name stored in the container has passed the name
    check. *)
Theorem Map_CheckSetter_kept (m : MapMultiSetter.t T) (paramVal : string) :
  MapMultiSetter.CheckSetter m = None ->
  MapMultiSetter.CheckSetter (MapMultiSetter.SetWithVal m paramVal).1 = None.
Proof.
  unfold MapMultiSetter.CheckSetter. rewrite !and_then_passes.
  intros [Hval Hcfg].
  destruct (GetNamedValue_receiver (MapMultiSetter.Base m) paramVal) as [ev Hev].
  unfold MapMultiSetter.SetWithVal.
  destruct (GetNamedValue (MapMultiSetter.Base m) paramVal) as [[b nv] err] eqn:E.
  simpl in Hev. subst b.
  apply Map_checkValue_passes in Hval.
  destruct err as [e|]; simpl; (split; [|exact Hcfg]);
    apply Map_checkValue_passes; simpl;
    (destruct Hval as [H|[H|H]]; [left; exact H | right; left; exact H |]).
  - right; right; exact H.
  - destruct (decide (size (AVals (MapMultiSetter.Base m)) = 0%nat)) as [Hz|Hnz];
      [left; exact Hz|].
    right; right. intros k Hk.
    destruct (decide (NamedValue.Name nv = k)) as [<-|Hne].
    + destruct (accepted_name_allowed _ _ _ _ E) as [Hz|Hin];
        [contradiction | exact Hin].
    + rewrite lookup_insert_ne in Hk by exact Hne. now apply H.
Qed.

(** X15: a list setter that passes [CheckSetter] passes it again after
    any call of [SetWithVal]. *)
Theorem List_CheckSetter_kept (l : ListMultiSetter.t T) (paramVal : string) :
  ListMultiSetter.CheckSetter l = None ->
  ListMultiSetter.CheckSetter (ListMultiSetter.SetWithVal l paramVal).1 = None.
Proof.
  unfold ListMultiSetter.CheckSetter. rewrite !and_then_passes.
  intros [Hval Hcfg].
  destruct (GetNamedValue_receiver (ListMultiSetter.Base l) paramVal) as [ev Hev].
  unfold ListMultiSetter.SetWithVal.
  destruct (GetNamedValue (ListMultiSetter.Base l) paramVal) as [[b nv] err] eqn:E.
  simpl in Hev. subst b.
  apply List_checkValue_passes in Hval.
  destruct err as [e|]; simpl; (split; [|exact Hcfg]);
    apply List_checkValue_passes; simpl;
    (destruct Hval as [H|[H|H]]; [left; exact H | right; left; exact H |]).
  - right; right; exact H.
  - destruct (decide (size (AVals (ListMultiSetter.Base l)) = 0%nat)) as [Hz|Hnz];
      [left; exact Hz|].
    right; right. apply Forall_app. split; [exact H|].
    constructor; [|constructor].
    destruct (accepted_name_allowed _ _ _ _ E) as [Hz|Hin];
      [contradiction | exact Hin].
Qed.

(** X16: after a call of [SetWithVal] of the map setter that returns no
    error the container maps the name of the parameter value to the value
    built from it, and every other name to what it was mapped to
    before. *)
Theorem Map_SetWithVal_stores (m m' : MapMultiSetter.t T) (paramVal : string) :
  MapMultiSetter.SetWithVal m paramVal = (m', None) ->
  let nv := (GetNamedValue (MapMultiSetter.Base m) paramVal).1.2 in
  MapMultiSetter.Value m' !! NamedValue.Name nv = Some (NamedValue.Value nv) /\
  (forall k, k <> NamedValue.Name nv ->
             MapMultiSetter.Value m' !! k = MapMultiSetter.Value m !! k).
Proof.
  unfold MapMultiSetter.SetWithVal.
  destruct (GetNamedValue (MapMultiSetter.Base m) paramVal) as [[b nv] [e|]];
    [discriminate|].
  intros [= <-]. simpl. split; [apply lookup_insert_eq|].
  intros k Hk. now apply lookup_insert_ne.
Qed.

End configuration.

(** ** The exit status, the widths and the check of the runes *)

Section program.
Context {Stack P : Type}.

(** X17: after any number of calls of [SetExitStatus] the exit status is
    the first value that is not zero among the status before the calls
    and the values given, in order, and zero if there is none: once set
    to a failure it is kept.  The other members are not touched. *)
Theorem SetExitStatus_keeps_first_failure (ess : list Z) :
  forall prog : Prog.t Stack P,
    let prog' := fold_left Prog.SetExitStatus ess prog in
    Prog.exitStatus prog'
    = default 0%Z (head (filter (fun es => es <> 0%Z) (Prog.exitStatus prog :: ess))) /\
    Prog.stack prog' = Prog.stack prog /\
    Prog.maxResults prog' = Prog.maxResults prog /\
    Prog.wordFile prog' = Prog.wordFile prog /\
    Prog.algoParams prog' = Prog.algoParams prog.
Proof.
  induction ess as [|es ess IH]; intros prog; cbn [fold_left].
  - cbv zeta. rewrite filter_cons, filter_nil.
    case_decide as H0; simpl; [auto|].
    split; [|auto].
    destruct (decide (Prog.exitStatus prog = 0%Z)); [assumption | contradiction].
  - specialize (IH (Prog.SetExitStatus prog es)). cbv zeta in *.
    destruct IH as (Hes & Hst & Hmx & Hwf & Hap).
    rewrite Hes, Hst, Hmx, Hwf, Hap. clear Hes Hst Hmx Hwf Hap.
    unfold Prog.SetExitStatus.
    rewrite (filter_cons _ (Prog.exitStatus prog)).
    destruct (decide (Prog.exitStatus prog = 0%Z)) as [Hz|Hnz].
    + rewrite decide_False by tauto. simpl. auto.
    + rewrite decide_True by exact Hnz.
      rewrite (filter_cons _ (Prog.exitStatus prog)).
      rewrite decide_True by exact Hnz. simpl. auto.
Qed.

Lemma fold_max_lengths (ss : list string) : forall acc,
  let r := fold_left (fun maxLen s => Nat.max maxLen (String.length s)) ss acc in
  (acc <= r)%nat /\
  (forall s, s ∈ ss -> (String.length s <= r)%nat) /\
  (r = acc \/ exists s, s ∈ ss /\ String.length s = r).
Proof.
  induction ss as [|x ss IH]; intros acc; cbn [fold_left]; cbv zeta.
  - split; [lia|]. split; [intros s Hs; inversion Hs | now left].
  - specialize (IH (Nat.max acc (String.length x))). cbv zeta in IH.
    destruct IH as (Hacc & Hall & Hatt). split; [lia|]. split.
    + intros s Hs. apply elem_of_cons in Hs as [-> | Hs]; [lia | auto].
    + destruct Hatt as [Heq|(s & Hs & Heq)].
      * destruct (Nat.max_spec acc (String.length x)) as [[_ Hm]|[_ Hm]];
          rewrite Hm in Heq |- *; [right | now left].
        exists x. split; [apply list_elem_of_here | now symmetry].
      * right. exists s. split; [now apply list_elem_of_further | exact Heq].
Qed.

(** X18: [getMaxStrLen] is a bound of the length of every string of the
    slice, it is the length of one of them when the slice is not empty,
    and zero when it is. *)
Theorem getMaxStrLen_is_the_longest (ss : list string) :
  (forall s, s ∈ ss -> (String.length s <= Prog.getMaxStrLen ss)%nat) /\
  (ss <> [] -> exists s, s ∈ ss /\ String.length s = Prog.getMaxStrLen ss) /\
  (ss = [] -> Prog.getMaxStrLen ss = 0%nat).
Proof.
  destruct (fold_max_lengths ss 0%nat) as (_ & Hall & Hatt).
  fold (Prog.getMaxStrLen ss) in Hall, Hatt.
  split; [exact Hall|]. split; [|now intros ->].
  intros Hne. destruct Hatt as [Hz|Hatt]; [|exact Hatt].
  destruct ss as [|x ss]; [contradiction|]. exists x.
  split; [apply list_elem_of_here|].
  pose proof (Hall x (list_elem_of_here _ _)). lia.
Qed.

(** X19: the check of the [stripRunes] sub-value, which is written to
    refuse a string in which a rune appears twice, accepts every string:
    nothing is ever stored in its index of the runes seen, so no rune is
    ever found there. *)
Theorem stripRunesCheck_accepts_all (runes_of : string -> list N) (s : string) :
  addParams.stripRunesCheck runes_of s = None.
Proof.
  unfold addParams.stripRunesCheck. generalize 0%nat.
  induction (runes_of s) as [|r rest IH]; intros i; simpl; [reflexivity|].
  rewrite lookup_empty. apply IH.
Qed.

End program.

(** ** The finders *)

Section finders.
Context {Stack Float Algo Finder : Type}.
Context (algoMakers : gmap string (algo.algoParams Float -> Algo + error))
        (DefaultThresholds : string -> Float)
        (NewFinder : algo.FinderConfig Float -> Algo -> Finder + error).

Local Abbreviation makes := (algo.makes algoMakers DefaultThresholds NewFinder).
Local Abbreviation makeFinders_loop :=
  (algo.makeFinders_loop (Stack := Stack) algoMakers DefaultThresholds NewFinder).

Lemma makeFinders_loop_spec (aps : list (NamedValue.t (algo.algoParams Float))) :
  forall prog finders,
    match makeFinders_loop prog aps finders with
    | (prog', Some fs) =>
        prog' = prog /\
        exists new, fs = (finders ++ new)%list /\ Forall2 makes aps new
    | (prog', None) =>
        prog' = Prog.SetExitStatus prog 1 /\
        exists pre nv post made,
          aps = (pre ++ nv :: post)%list /\ Forall2 makes pre made /\
          forall f, ~ makes nv f
    end.
Proof.
  induction aps as [|nv aps IH]; intros prog finders; cbn [algo.makeFinders_loop].
  - split; [reflexivity|]. exists []. rewrite app_nil_r. split; constructor.
  - assert (Hfail : forall P : Prop, (forall f, ~ makes nv f) ->
      Prog.SetExitStatus prog 1 = Prog.SetExitStatus prog 1 /\
      exists pre nv0 post (made : list Finder),
        nv :: aps = (pre ++ nv0 :: post)%list /\ Forall2 makes pre made /\
        forall f, ~ makes nv0 f).
    { intros _ Hno. split; [reflexivity|]. exists [], nv, aps, [].
      split; [reflexivity|]. split; [constructor | exact Hno]. }
    destruct (algoMakers !! NamedValue.Name nv) as [mk|] eqn:Hmk.
    2:{ apply (Hfail True). intros f (mk & a & H1 & _). congruence. }
    destruct (mk (NamedValue.Value nv)) as [a|e] eqn:Ha.
    2:{ apply (Hfail True). intros f (mk' & a & H1 & H2 & _). congruence. }
    cbv zeta.
    destruct (NewFinder _ a) as [f|e] eqn:Hf.
    2:{ apply (Hfail True). intros f (mk' & a' & H1 & H2 & H3).
        unfold algo.config_of in H3. cbv zeta in H3.
        assert (mk' = mk) by congruence. subst mk'.
        assert (a' = a) by congruence. subst a'. congruence. }
    assert (Hmakes : makes nv f) by (exists mk, a; auto).
    specialize (IH prog (finders ++ [f])%list).
    destruct (makeFinders_loop prog aps (finders ++ [f])%list) as [prog' [fs|]].
    + destruct IH as (-> & new & -> & Hall). split; [reflexivity|].
      exists (f :: new). rewrite <- app_assoc. split; [reflexivity|].
      now constructor.
    + destruct IH as (-> & pre & nv0 & post & made & -> & Hpre & Hno).
      split; [reflexivity|].
      exists (nv :: pre), nv0, post, (f :: made).
      split; [reflexivity|]. split; [now constructor | exact Hno].
Qed.

(** X20: [makeFinders] makes all the finders or none.  When it returns
    finders there is one for each named value of [prog.algoParams], in
    order, made by the maker of its name with the threshold given, or the
    default of its name when none is given, and the program status is
    left as it was.  When it returns nil the exit status is set to one if
    it was zero, and there is a first named value of which no finder can
    be made: the name is not an algorithm, or the maker or the making of
    the finder returns an error. *)
Theorem makeFinders_all_or_none (prog : Prog.t Stack (algo.algoParams Float)) :
  match algo.makeFinders algoMakers DefaultThresholds NewFinder prog with
  | (prog', Some fs) =>
      prog' = prog /\
      List.length fs = List.length (Prog.algoParams prog) /\
      Forall2 makes (Prog.algoParams prog) fs
  | (prog', None) =>
      prog' = Prog.SetExitStatus prog 1 /\
      exists pre nv post made,
        Prog.algoParams prog = (pre ++ nv :: post)%list /\
        Forall2 makes pre made /\
        forall f, ~ makes nv f
  end.
Proof.
  unfold algo.makeFinders.
  pose proof (makeFinders_loop_spec (Prog.algoParams prog) prog []) as H.
  destruct (makeFinders_loop prog (Prog.algoParams prog) []) as [prog' [fs|]].
  - destruct H as (-> & new & -> & Hall). simpl.
    split; [reflexivity|]. split; [|exact Hall].
    symmetry. now apply Forall2_length in Hall.
  - exact H.
Qed.

End finders.

(** ** These properties at given parameter values *)

(** A name that is not in the allow-list of the [algo] parameter. *)
Lemma checkParamPartName_refuses_at_cos :
  ("cos" = "" /\ ErrBadName "cos" ["cosine"] = ErrNameEmpty) \/
  ("cos" <> "" /\ AVals Sample.algoDetailsSetter !! "cos" = None /\
   (0 < size (AVals Sample.algoDetailsSetter))%nat /\
   exists alts,
     ErrBadName "cos" ["cosine"] = ErrBadName "cos" alts /\
     alts = strdist.FindNStrLike 3 "cos" (maps_Keys (AVals Sample.algoDetailsSetter)) /\
     (strdist.Finder_contract Sample.finder ->
      (List.length alts <= 3)%nat /\
      forall a, a ∈ alts -> is_Some (AVals Sample.algoDetailsSetter !! a))).
Proof.
  apply (checkParamPartName_refuses Sample.algoDetailsSetter "cos").
  vm_compute; reflexivity.
Defined.

(** A parameter value with two assignments, one by an alias, on the
    setter with a field that must be set. *)
Lemma accepted_name_at_two_fields :
  let s := Sample.mustSetter in
  let pv := lit "cosine=ngLen='2' minStrLen='7'" in
  let nv := (GetNamedValue s pv).1.2 in
  NamedValue.Name nv <> "" /\
  all_chars (fun c => negb (Ascii.eqb c "=")) (NamedValue.Name nv) = true /\
  (size (AVals s) = 0%nat \/ is_Some (AVals s !! NamedValue.Name nv)) /\
  (pv = NamedValue.Name nv \/ exists val, pv = NamedValue.Name nv ++ "=" ++ val).
Proof.
  intros s pv nv.
  apply (accepted_name s pv (GetNamedValue s pv).1.1 nv).
  vm_compute; reflexivity.
Defined.

Lemma FindAll_sound_at_k :
  exists a, well_formed a = true /\
            identifier_grammar (a_key a) = true /\
            all_chars re.not_quote (a_val a) = true /\
            [lit "k='1' "; "k"; "1"] = [render a; a_key a; a_val a].
Proof.
  apply (FindAll_sound (lit "k='1' x")).
  assert (H : re.subValueRE_FindAllStringSubmatch (lit "k='1' x")
              = [[lit "k='1' "; "k"; "1"]]) by (vm_compute; reflexivity).
  rewrite H. apply list_elem_of_here.
Defined.

Lemma FindAll_of_rendered_at_two_fields :
  let l := [Assignment " " "ngLen" "" " " "2" " ";
            Assignment " " "minStrLen" " " "" "7" ""] in
  (fun t => (key_of t, val_of t))
    <$> re.subValueRE_FindAllStringSubmatch (render_all l)
  = [("ngLen", "2"); ("minStrLen", "7")] /\
  concat_all (whole_of <$> re.subValueRE_FindAllStringSubmatch (render_all l))
  = render_all l.
Proof.
  intros l. apply (FindAll_of_rendered l).
  repeat (constructor; [vm_compute; reflexivity|]). constructor.
Defined.

Lemma accepted_field_list_at_two_fields :
  exists l : list assignment,
    l <> [] /\ Forall (fun a => well_formed a = true) l /\
    lit "ngLen='2' minStrLen='7'" = render_all l /\
    re.subValueRE_FindAllStringSubmatch (lit "ngLen='2' minStrLen='7'")
    = (fun a => [render a; a_key a; a_val a]) <$> l.
Proof.
  pose (s := Sample.mustSetter).
  pose (pv := lit "cosine=ngLen='2' minStrLen='7'").
  apply (accepted_field_list s pv "cosine" (lit "ngLen='2' minStrLen='7'")
           (GetNamedValue s pv).1.1 (GetNamedValue s pv).1.2);
    vm_compute; reflexivity.
Defined.

Lemma accepted_keys_at_two_fields :
  let s := Sample.mustSetter in
  let toks := re.subValueRE_FindAllStringSubmatch (lit "ngLen='2' minStrLen='7'") in
  Forall (fun t => is_Some (EntryValSetterMap s !! canonical s (key_of t))) toks /\
  NoDup ((fun t => canonical s (key_of t)) <$> toks).
Proof.
  intros s.
  pose (pv := lit "cosine=ngLen='2' minStrLen='7'").
  apply (accepted_keys s pv "cosine" (lit "ngLen='2' minStrLen='7'")
           (GetNamedValue s pv).1.1 (GetNamedValue s pv).1.2);
    vm_compute; reflexivity.
Defined.

Lemma accepted_mandatory_at_two_fields :
  exists t,
    t ∈ re.subValueRE_FindAllStringSubmatch (lit "ngLen='2' minStrLen='7'") /\
    canonical Sample.mustSetter (key_of t) = "minStrLen".
Proof.
  pose (s := Sample.mustSetter).
  pose (pv := lit "cosine=ngLen='2' minStrLen='7'").
  apply (accepted_mandatory s pv "cosine" (lit "ngLen='2' minStrLen='7'")
           (GetNamedValue s pv).1.1 (GetNamedValue s pv).1.2 "minStrLen"
           (Sample.evs (Sample.Int_Setter Sample.set_minStrLen (fun _ => true)) [] true));
    vm_compute; reflexivity.
Defined.

Lemma accepted_value_at_two_fields :
  let s := Sample.mustSetter in
  let pv := lit "cosine=ngLen='2' minStrLen='7'" in
  NamedValue.Name (GetNamedValue s pv).1.2 = "cosine" /\
  NamedValue.Value (GetNamedValue s pv).1.2 = EntryVal (GetNamedValue s pv).1.1.
Proof.
  intros s pv.
  apply (accepted_value s pv "cosine" (lit "ngLen='2' minStrLen='7'") true
           (GetNamedValue s pv).1.1 (GetNamedValue s pv).1.2);
    vm_compute; reflexivity.
Defined.

(** Text between the first assignment and the second. *)
Lemma text_before_an_entry_at_xyz :
  let s := Sample.algoDetailsSetter in
  let pv := lit "cosine=nGramLen='2' xyz minStrLen='2'" in
  exists badVal after,
    badVal <> "" /\
    lit "nGramLen='2' xyz minStrLen='2'"
    = concat_all (whole_of <$> [[lit "nGramLen='2' "; "nGramLen"; "2"]])
        ++ badVal ++ lit " minStrLen='2'" ++ after /\
    (GetNamedValue s pv).2 = Some (ErrTextBefore badVal 2 (lit " minStrLen='2'")).
Proof.
  intros s pv.
  pose (val := lit "nGramLen='2' xyz minStrLen='2'").
  pose (pre := [[lit "nGramLen='2' "; "nGramLen"; "2"]]).
  pose (r := setWithSubvals (set_EntryVal s (DfltEntryVal s)) val 0 pre ∅).
  destruct (text_before_an_entry s pv "cosine" val pre []
              (lit " minStrLen='2'") "minStrLen" "2" r.1.1.1 r.1.1.2 r.1.2)
    as (badVal & after & Hne & Hval & Hcall); try (vm_compute; reflexivity).
  exists badVal, after. split; [exact Hne|]. split; [exact Hval|].
  now rewrite Hcall.
Defined.

Lemma checked_keys_resolve_at_algo :
  (forall alias k,
     EntryValSMAliases Sample.algoDetailsSetter !! alias = Some k ->
     exists evs, EntryValSetterMap Sample.algoDetailsSetter !! k = Some evs /\
                 forall i, getSetter Sample.algoDetailsSetter i alias = inl (k, evs)) /\
  (forall k evs,
     EntryValSetterMap Sample.algoDetailsSetter !! k = Some evs ->
     forall i, getSetter Sample.algoDetailsSetter i k = inl (k, evs)).
Proof.
  apply (checked_keys_resolve Sample.algoDetailsSetter).
  vm_compute; reflexivity.
Defined.

Lemma Map_CheckSetter_kept_at_cosine :
  let m := {| MapMultiSetter.Value := ∅;
              MapMultiSetter.AllowHiddenMapEntries := false;
              MapMultiSetter.Base := Sample.algoDetailsSetter |} in
  MapMultiSetter.CheckSetter
    (MapMultiSetter.SetWithVal m (lit "cosine=ngLen='2'")).1 = None.
Proof.
  intros m. apply Map_CheckSetter_kept. vm_compute; reflexivity.
Defined.

Lemma List_CheckSetter_kept_at_cosine :
  let l := {| ListMultiSetter.Value := [];
              ListMultiSetter.AllowInvalidListEntries := false;
              ListMultiSetter.Base := Sample.algoDetailsSetter |} in
  ListMultiSetter.CheckSetter
    (ListMultiSetter.SetWithVal l (lit "cosine=ngLen='2'")).1 = None.
Proof.
  intros l. apply List_CheckSetter_kept. vm_compute; reflexivity.
Defined.

Lemma Map_SetWithVal_stores_at_cosine :
  let m := {| MapMultiSetter.Value := ∅;
              MapMultiSetter.AllowHiddenMapEntries := false;
              MapMultiSetter.Base := Sample.algoDetailsSetter |} in
  let pv := lit "cosine=ngLen='2'" in
  let m' := (MapMultiSetter.SetWithVal m pv).1 in
  let nv := (GetNamedValue Sample.algoDetailsSetter pv).1.2 in
  MapMultiSetter.Value m' !! NamedValue.Name nv = Some (NamedValue.Value nv) /\
  (forall k, k <> NamedValue.Name nv ->
             MapMultiSetter.Value m' !! k = MapMultiSetter.Value m !! k).
Proof.
  intros m pv m' nv.
  apply (Map_SetWithVal_stores m m' pv). vm_compute; reflexivity.
Defined.

(** X21: a key that is not of the identifier grammar is the key of no
    match of the assignment pattern, in any text: a field whose key in
    the setter map is such a key (the check of the keys lets some pass)
    is never assigned through its key. *)
Theorem key_outside_grammar_never_matched (k text : string) (sVal : list string) :
  identifier_grammar k = false ->
  sVal ∈ re.subValueRE_FindAllStringSubmatch text ->
  key_of sVal <> k.
Proof.
  intros Hk Hin Heq.
  apply FindAll_fuel_sound in Hin as (a & Hwa & ->).
  change (key_of [render a; a_key a; a_val a]) with (a_key a) in Heq. subst k.
  unfold well_formed in Hwa. rewrite !andb_true_iff in Hwa.
  destruct Hwa as [[[[[_ Hg] _] _] _] _]. congruence.
Qed.

(** The key with hyphens and a text that tries to assign it. *)
Lemma key_outside_grammar_never_matched_at_hyphens :
  re.subValueRE_FindAllStringSubmatch (lit "n-gram-len='2'")
  = [[lit "len='2'"; "len"; "2"]] /\
  key_of [lit "len='2'"; "len"; "2"] <> "n-gram-len".
Proof.
  assert (H : re.subValueRE_FindAllStringSubmatch (lit "n-gram-len='2'")
              = [[lit "len='2'"; "len"; "2"]]) by (vm_compute; reflexivity).
  split; [exact H|].
  apply (key_outside_grammar_never_matched "n-gram-len" (lit "n-gram-len='2'")).
  - vm_compute; reflexivity.
  - rewrite H. apply list_elem_of_here.
Defined.
